(** * Rarity of First First NFTs: a shallow embedding of
    [first_first_nfts_rarity.py] and the properties of its pipeline.

    Python strings are modelled by [string], restricted to the code points
    0..255; Python integers by [Z] (identifiers, offsets, denominators) and
    by [nat] (counts and lengths, which are never negative); the three
    [defaultdict]s by [gmap]s read with the empty list as default; the
    [Counter], whose iteration order is observable in the output, by an
    association list kept in insertion order. *)

From Stdlib Require Import ZArith List String Ascii Lia.
From Stdlib Require Import DecimalString DecimalPos DecimalZ.
From stdpp Require Import gmap strings list sorting.
From Equations Require Import Equations.
Import ListNotations.

Local Open Scope string_scope.
Local Open Scope list_scope.
Local Open Scope nat_scope.

(** ** Constants (lines 26-38) *)

Definition LIMIT : Z := 50.
Definition MAX_SUPPLY : Z := 5000.
Definition THOUSAND : Z := 1000.
Definition HUNDRED : Z := 100.
Definition ROUND_DIGITS : Z := 2.

(** ** Regular expressions of the shape [[^...]+]

    [REGEX = '[^0-9a-zA-Z%-\\.]+'] is the Python literal of the pattern
    [[^0-9a-zA-Z%-\.]+].  Inside a character class a [-] between two
    members denotes a range, and [\.] is the character [.]; the class
    therefore has four ranges, the last one from [%] (37) to [.] (46). *)

Inductive class_item : Type :=
  | Range (lo hi : ascii).

Record char_class : Type := {
  negated : bool;
  items : list class_item
}.

Definition code (c : ascii) : N := N_of_ascii c.

Definition item_matches (c : ascii) (it : class_item) : bool :=
  match it with
  | Range lo hi => (code lo <=? code c)%N && (code c <=? code hi)%N
  end.

Definition class_matches (cls : char_class) (c : ascii) : bool :=
  let listed := existsb (item_matches c) (items cls) in
  if negated cls then negb listed else listed.

Definition REGEX : char_class :=
  {| negated := true;
     items := [Range "0" "9"; Range "a" "z"; Range "A" "Z"; Range "%" "."] |}.

(** [re.sub(cls+, repl, s)]: every maximal run of characters matched by the
    class is replaced by one copy of [repl].  [in_run] records that the
    previous character belonged to a run that was already replaced. *)
Fixpoint sub_runs (bad : ascii -> bool) (repl : string) (in_run : bool)
    (s : string) : string :=
  match s with
  | EmptyString => EmptyString
  | String c s' =>
      if bad c then
        if in_run then sub_runs bad repl true s'
        else repl +:+ sub_runs bad repl true s'
      else String c (sub_runs bad repl false s')
  end.

Definition re_sub (cls : char_class) (repl s : string) : string :=
  sub_runs (class_matches cls) repl false s.

(** [s.split(sep)] for a one-character separator: the fragments between
    separators, empty ones included; never the empty list. *)
Fixpoint split (sep : ascii) (s : string) : list string :=
  match s with
  | EmptyString => [EmptyString]
  | String c s' =>
      if Ascii.eqb c sep then EmptyString :: split sep s'
      else match split sep s' with
           | w :: ws => String c w :: ws
           | [] => [String c EmptyString]
           end
  end.

Definition nonempty (s : string) : bool :=
  match s with EmptyString => false | String _ _ => true end.

(** [n] copies of a character. *)
Fixpoint string_repeat (c : ascii) (n : nat) : string :=
  match n with
  | 0 => EmptyString
  | S n => String c (string_repeat c n)
  end.

(** Lines 203-208 of [organize_text_data]: the tokenizer. *)
Definition tokenize (text : string) : list string :=
  let text := re_sub REGEX " " text in
  let text := split " " text in
  List.filter nonempty text.

(** ** Text normalisation (lines 196-197) *)

(** [str.lower] on the code points below 256, where it works character by
    character: the letters [A]-[Z] and the upper-case Latin-1 letters
    (192-214 and 216-222) move up by 32, every other character stays. *)
Definition lower_char (c : ascii) : ascii :=
  let n := code c in
  if ((65 <=? n) && (n <=? 90) || (192 <=? n) && (n <=? 214)
      || (216 <=? n) && (n <=? 222))%N
  then ascii_of_N (n + 32) else c.

Fixpoint lower (s : string) : string :=
  match s with
  | EmptyString => EmptyString
  | String c s' => String (lower_char c) (lower s')
  end.

(** [s[:stop]]: a negative [stop] counts from the end, and both bounds are
    clamped to the string. *)
Definition slice_to (s : string) (stop : Z) : string :=
  let n := Z.of_nat (String.length s) in
  let stop := if (stop <? 0)%Z then Z.max 0 (stop + n) else Z.min stop n in
  substring 0 (Z.to_nat stop) s.

Definition normalize (text : string) : string :=
  let text := lower text in
  slice_to text (Z.of_nat (String.length text) - 1).

(** The same two lines on sequences over any alphabet, for any
    lower-casing function: what lines 196-197 do does not depend on the
    code points a string may hold, nor on [str.lower] working character by
    character (beyond code point 255 it does not: it can change the number
    of code points). *)
Section Normalize.
Context {A : Type} (str_lower : list A -> list A).

Definition slice_to_list (s : list A) (stop : Z) : list A :=
  let n := Z.of_nat (length s) in
  let stop := if (stop <? 0)%Z then Z.max 0 (stop + n) else Z.min stop n in
  take (Z.to_nat stop) s.

Definition normalize_list (text : list A) : list A :=
  let text := str_lower text in
  slice_to_list text (Z.of_nat (length text) - 1).
End Normalize.

(** ** The tokenizer of the specification

    Every maximal run of characters outside {alphanumeric, [%], [-], [.]}
    becomes one space; the result is split on spaces and the empty
    fragments are dropped. *)

Definition alphanumeric (c : ascii) : bool :=
  let n := code c in
  ((48 <=? n) && (n <=? 57) || (65 <=? n) && (n <=? 90)
   || (97 <=? n) && (n <=? 122))%N.

Definition spec_retained (c : ascii) : bool :=
  alphanumeric c || Ascii.eqb c "%" || Ascii.eqb c "-" || Ascii.eqb c ".".

Definition spec_tokenize (text : string) : list string :=
  List.filter nonempty
    (split " " (sub_runs (fun c => negb (spec_retained c)) " " false text)).

(** ** [collections.Counter] as an insertion-ordered dictionary

    [Counter(data)] runs [mapping[elem] = mapping.get(elem, 0) + 1] over
    the data: a key met for the first time goes to the end, a key already
    present is updated in place.  [items()] walks that order. *)

Section Dict.
Context {K V : Type} `{EqDecision K}.

Fixpoint dict_get (d : list (K * V)) (k : K) : option V :=
  match d with
  | [] => None
  | (k', v) :: d' => if decide (k = k') then Some v else dict_get d' k
  end.

Fixpoint dict_set (k : K) (v : V) (d : list (K * V)) : list (K * V) :=
  match d with
  | [] => [(k, v)]
  | (k', v') :: d' =>
      if decide (k = k') then (k', v) :: d' else (k', v') :: dict_set k v d'
  end.
End Dict.

Section Counter.
Context {K : Type} `{EqDecision K}.

Definition counter_add (c : list (K * nat)) (elem : K) : list (K * nat) :=
  dict_set elem (default 0 (dict_get c elem) + 1)%nat c.

Definition Counter (data : list K) : list (K * nat) :=
  fold_left counter_add data [].
End Counter.

(** ** [sorted(output, key=...)]

    Python's sort is stable; the functions that return a stable ordered
    permutation all agree ([sorted_unique] below), so insertion from the
    right is taken as its model: an element is placed before the first
    element whose key is not smaller, hence before its equals that
    followed it. *)

Section Sorted.
Context {A : Type} (key : A -> nat).

Fixpoint insert_by (x : A) (l : list A) : list A :=
  match l with
  | [] => [x]
  | y :: l' => if (key x <=? key y)%nat then x :: l else y :: insert_by x l'
  end.

Definition sorted (l : list A) : list A := fold_right insert_by [] l.
End Sorted.

(** ** [defaultdict(lambda: [])]

    Reading a key gives its list, the empty list when the key is new;
    [d[k].append(v)] extends that list.  Nothing in the program depends on
    the order of the keys of these dictionaries. *)

Section DefaultDict.
Context {K : Type} `{Countable K}.

Definition mapping_get (mapping : gmap K (list Z)) (key : K) : list Z :=
  default [] (mapping !! key).

Definition mapping_append (mapping : gmap K (list Z)) (key : K) (v : Z)
    : gmap K (list Z) :=
  <[key := mapping_get mapping key ++ [v]]> mapping.
End DefaultDict.

(** ** The floating-point primitives used by [get_rarity]

    Line 343 divides two integers, multiplies by [HUNDRED], rounds to
    [ROUND_DIGITS] decimals and renders the result with [str].  These are
    operations of the Python runtime on binary64 numbers.  [get_rarity] is
    written over their interface; [Binary64] below implements it, and
    what is said of the printed percentages is said of that
    implementation. *)

Class PyFloat : Type := {
  float : Type;
  int_truediv : Z -> Z -> float;      (* a / b, for b <> 0 *)
  float_mul_int : float -> Z -> float; (* x * n *)
  float_round : float -> Z -> float;   (* round(x, ndigits) *)
  float_str : float -> string;         (* str(x) *)
  float_of_str : string -> option float (* float(s) *)
}.

(** ** [get_rarity] (lines 325-349) *)

(** A record is the tuple [(key, value, rarity[key], mapping[key])]. *)
Definition RarityRecord (K : Type) : Type := (K * nat * string * list Z)%type.

Definition record_key {K} (x : RarityRecord K) : K := x.1.1.1.
Definition occurrenceCount {K} (x : RarityRecord K) : nat := x.1.1.2.
Definition rarityPercentage {K} (x : RarityRecord K) : string := x.1.2.
Definition record_ids {K} (x : RarityRecord K) : list Z := x.2.

Section GetRarity.
Context `{PyFloat} {K : Type} `{Countable K}.

Definition percentage (value : nat) (total : Z) : float :=
  float_round (float_mul_int (int_truediv (Z.of_nat value) total) HUNDRED)
              ROUND_DIGITS.

(** [str(round((value / total) * HUNDRED, ROUND_DIGITS)) + '%'] *)
Definition rarity_text (value : nat) (total : Z) : string :=
  float_str (percentage value total) +:+ "%".

(** Lines 342-343.  The division raises [ZeroDivisionError] when [total]
    is zero, which ends the run: [None]. *)
Fixpoint rarity_loop (total : Z) (items : list (K * nat))
    (rarity : list (K * string)) : option (list (K * string)) :=
  match items with
  | [] => Some rarity
  | (key, value) :: rest =>
      if (total =? 0)%Z then None
      else rarity_loop total rest (dict_set key (rarity_text value total) rarity)
  end.

(** [rarity[key]]: a [Counter] answers 0 for a key it does not hold; the
    only reader of the field is the f-string of [write_to_file], where
    that 0 is the text ["0"]. *)
Definition rarity_get (rarity : list (K * string)) (key : K) : string :=
  default "0" (dict_get rarity key).

Definition get_rarity (data : list K) (mapping : gmap K (list Z))
    (total : Z) : option (list (RarityRecord K)) :=
  let counter := Counter data in
  match rarity_loop total counter [] with
  | None => None
  | Some rarity =>
      let output :=
        map (fun '(key, value) =>
               (key, value, rarity_get rarity key, mapping_get mapping key))
            counter in
      Some (sorted occurrenceCount output)
  end.
End GetRarity.

(** ** Effects

    The program talks to two services, prints, sleeps and writes files, and
    any failed request ends the process.  A run is the list of the events
    it caused together with its result, [None] once the process has ended
    early. *)

Inductive event : Type :=
  | EAbi                       (* the ABI request of [connect_to_contract] *)
  | ERequest (offset limit : Z) (* one page request of the index *)
  | ECall (token_id : Z)       (* [getString(token_id).call()] *)
  | EPrint (msg : string)      (* a fixed line on the console *)
  | EDiagnostic                (* the printed text of a caught exception *)
  | EClock (msg : string)      (* a line that ends with the wall clock *)
  | EProgress (count : Z)      (* [print_progress_bar(count)] *)
  | ESleep
  | EWrite (filename : string) (lines : list string).
                               (* the lines that reached a file *)

Definition run (A : Type) : Type := (list event * option A)%type.

Definition ret {A} (a : A) : run A := ([], Some a).
Definition emit (e : event) : run unit := ([e], Some tt).
Definition exit {A} : run A := ([], None).

Definition bind {A B} (m : run A) (k : A -> run B) : run B :=
  match m with
  | (t, None) => (t, None)
  | (t, Some a) => let '(t', r) := k a in (t ++ t', r)
  end.

Notation "x <-- m ;; k" := (bind m (fun x => k))
  (at level 100, m at next level, right associativity).
Notation "m ;;; k" := (bind m (fun _ => k))
  (at level 100, right associativity).

Definition print_start_time (message : string) : run unit :=
  emit (EClock message).

Definition print_end_time (message : string) : run unit :=
  emit (EClock message) ;;; emit (EClock "DURATION:").

(** The state of the loop of [organize_text_data]; [output_words] is still
    a list of lists there. *)
Record organize_state : Type := {
  output_words : list (list string);
  output_total_word_counts : list nat;
  output_complete_texts : list string;
  output_word_to_token_id : gmap string (list Z);
  output_total_word_count_to_token_id : gmap nat (list Z);
  output_complete_text_to_token_id : gmap string (list Z)
}.

Definition organize_init : organize_state :=
  {| output_words := [];
     output_total_word_counts := [];
     output_complete_texts := [];
     output_word_to_token_id := ∅;
     output_total_word_count_to_token_id := ∅;
     output_complete_text_to_token_id := ∅ |}.

(** Lines 196-219: what one fetched string adds to the state. *)
Definition aggregate (token_id : Z) (text : string) (st : organize_state)
    : organize_state :=
  let text := normalize text in
  let words := tokenize text in
  {| output_words := output_words st ++ [words];
     output_total_word_counts :=
       output_total_word_counts st ++ [length words];
     output_complete_texts := output_complete_texts st ++ [text];
     output_word_to_token_id :=
       fold_left (fun m word => mapping_append m word token_id) words
                 (output_word_to_token_id st);
     output_total_word_count_to_token_id :=
       mapping_append (output_total_word_count_to_token_id st)
                      (length words) token_id;
     output_complete_text_to_token_id :=
       mapping_append (output_complete_text_to_token_id st) text token_id |}.

(** What [organize_text_data] returns: the words flattened, then the other
    five components. *)
Definition organized : Type :=
  (list string * list nat * list string
   * gmap string (list Z) * gmap nat (list Z) * gmap string (list Z))%type.

Definition organize_result (st : organize_state) : organized :=
  (concat (output_words st), output_total_word_counts st,
   output_complete_texts st, output_word_to_token_id st,
   output_total_word_count_to_token_id st,
   output_complete_text_to_token_id st).

(** ** The lines of a file (lines 364-369) *)

(** [str(n)] for an integer. *)
Definition str_int (n : Z) : string := NilZero.string_of_int (Z.to_int n).

(** [sep.join(l)] *)
Fixpoint join (sep : string) (l : list string) : string :=
  match l with
  | [] => EmptyString
  | [w] => w
  | w :: l' => w +:+ sep +:+ join sep l'
  end.

(** Lines 365-369: the line of one record; [str_key] is [str] on the type
    of the keys. *)
Definition record_line {K} (str_key : K -> string) (x : RarityRecord K)
    : string :=
  let '(text, count, rarity, token_ids) := x in
  let token_ids := map str_int token_ids in
  let token_ids := join ";" token_ids in
  str_key text +:+ "," +:+ str_int (Z.of_nat count) +:+ "," +:+ rarity
  +:+ ",[" +:+ token_ids +:+ "]".

(** What [write_to_file] prints into the file: the header, then the
    records. *)
Definition file_lines {K} (str_key : K -> string) (header : string)
    (data : list (RarityRecord K)) : list string :=
  header :: map (record_line str_key) data.

(** ** The script *)

(** The exceptions a call of the contract can end in: the one that line
    226 catches, and any other (a failed connection, say), which nothing
    catches. *)
Inductive exn : Type :=
  | SolidityError
  | OtherException.

(** What becomes of a file opened for writing: all its lines are printed;
    or an exception is raised after the first [n] of them; or [open]
    raises and nothing is printed. *)
Inductive write_outcome : Type :=
  | Written
  | Interrupted (n : nat)
  | Refused.

(** An exception nobody catches ends the process as well, with nothing
    printed on the standard output. *)
Definition raise_or {A} (r : option A) : run A := ([], r).

Section Pipeline.
Context `{PyFloat}.

(** The outside world: whether the ABI request succeeds, the page of
    identifiers answered at each offset, the string the contract holds
    for each identifier ([None]: the request or the call raises), the
    statistics and histograms of lines 394-411, which only read their
    arguments, the exception that the call for an identifier raises when
    it raises, and the fate of a file given its name and the lines to be
    printed into it. *)
Variable etherscan : bool.
Variable opensea : Z -> option (list Z).
Variable getString : Z -> option string.
Variable report : list string -> list nat -> run unit.
Variable raised : Z -> exn.
Variable disk : string -> list string -> write_outcome.

(** [send_request] (lines 41-64), for a page of the index. *)
Definition send_request (offset : Z) : run (list Z) :=
  emit (ERequest offset LIMIT) ;;;
  match opensea offset with
  | Some page => ret page
  | None => emit EDiagnostic ;;; exit
  end.

Definition connect_to_contract : run unit :=
  emit EAbi ;;;
  if etherscan then ret tt else (emit EDiagnostic ;;; exit).

(** The [while] loop of [get_claimed_token_ids] (lines 137-149). *)
Equations? claimed_loop (claimed : list Z) (offset : Z) : run (list Z)
  by wf (Z.to_nat (MAX_SUPPLY - offset)) lt :=
  claimed_loop claimed offset with Z_le_dec offset (MAX_SUPPLY - LIMIT) := {
    | right _ => ret claimed
    | left _ =>
        page <-- send_request offset ;;
        let claimed := claimed ++ page in
        let offset := (offset + LIMIT)%Z in
        (if decide (offset = LIMIT \/ (offset mod THOUSAND)%Z = 0%Z)
         then emit (EProgress (offset / THOUSAND)) else ret tt) ;;;
        emit ESleep ;;;
        claimed_loop claimed offset }.
Proof. unfold MAX_SUPPLY, LIMIT in *. lia. Qed.

Definition get_claimed_token_ids : run (list Z) := claimed_loop [] 0.

(** The [for] loop of [organize_text_data] (lines 192-228);
    [query_progress_count] is the index given by [enumerate].  Only a
    [SolidityError] is caught, printed and followed by [exit()]; any
    other exception leaves the loop and the script uncaught. *)
Fixpoint organize_loop (query_progress_count : Z) (claimed : list Z)
    (st : organize_state) : run organize_state :=
  match claimed with
  | [] => ret st
  | token_id :: rest =>
      emit (ECall token_id) ;;;
      match getString token_id with
      | None =>
          match raised token_id with
          | SolidityError => emit EDiagnostic ;;; exit
          | OtherException => raise_or None
          end
      | Some text =>
          let st := aggregate token_id text st in
          (if decide (query_progress_count = 0%Z
                      \/ ((query_progress_count + 1) mod THOUSAND)%Z = 0%Z)
           then emit (EProgress ((query_progress_count + 1) / THOUSAND))
           else ret tt) ;;;
          emit ESleep ;;;
          organize_loop (query_progress_count + 1) rest st
      end
  end.

Definition organize_text_data (claimed : list Z) : run organized :=
  st <-- organize_loop 0 claimed organize_init ;;
  ret (organize_result st).

(** [write_to_file] (lines 352-371): the header and one line for each
    record are printed into the file; [open] and [print] can raise, and
    nothing catches what they raise.  [str_key] is [str] on the type of
    the keys. *)
Definition write_to_file {K} (str_key : K -> string)
    (filename header : string) (data : list (RarityRecord K)) : run unit :=
  let lines := file_lines str_key header data in
  match disk filename lines with
  | Written => emit (EWrite filename lines)
  | Interrupted n => emit (EWrite filename (take n lines)) ;;; raise_or None
  | Refused => raise_or None
  end.

Definition rarities : Type :=
  (list (RarityRecord string) * list (RarityRecord nat)
   * list (RarityRecord string))%type.

(** Lines 414-416: the three calls of [get_rarity]. *)
Definition rarity_stage (o : organized) : option rarities :=
  let '(words, total_word_counts, complete_texts, word_to_token_id,
        total_word_count_to_token_id, complete_text_to_token_id) := o in
  match get_rarity words word_to_token_id (Z.of_nat (length words)) with
  | None => None
  | Some words =>
      match get_rarity total_word_counts total_word_count_to_token_id
                       MAX_SUPPLY with
      | None => None
      | Some total_word_counts =>
          match get_rarity complete_texts complete_text_to_token_id
                           MAX_SUPPLY with
          | None => None
          | Some complete_texts =>
              Some (words, total_word_counts, complete_texts)
          end
      end
  end.

(** The script (lines 374-421). *)
Definition main : run rarities :=
  connect_to_contract ;;;
  print_start_time "STARTED COLLECTING CLAIMED TOKEN IDS:" ;;;
  claimed_token_ids <-- get_claimed_token_ids ;;
  print_end_time "FINISHED COLLECTING CLAIMED TOKEN IDS:" ;;;
  if decide (Z.of_nat (length claimed_token_ids) <> MAX_SUPPLY) then
    emit (EPrint "There should be 5000 tokens. Something went wrong.") ;;;
    exit
  else
    print_start_time "STARTED QUERYING CONTRACT:" ;;;
    o <-- organize_text_data claimed_token_ids ;;
    print_end_time "FINISHED QUERYING CONTRACT:" ;;;
    report o.1.1.1.1.1 o.1.1.1.1.2 ;;;
    r <-- raise_or (rarity_stage o) ;;
    write_to_file id "words.txt" "WORD,COUNT,RARITY,TOKEN_ID" r.1.1 ;;;
    write_to_file (fun n => str_int (Z.of_nat n)) "total_word_counts.txt"
                  "TOTAL_WORD_COUNT,COUNT,RARITY,TOKEN_ID" r.1.2 ;;;
    write_to_file id "complete_texts.txt"
                  "COMPLETE_TEXT,COUNT,RARITY,TOKEN_ID" r.2 ;;;
    ret r.
End Pipeline.

(** ** Binary64 numbers as CPython computes with them

    A finite binary64 number is a multiple of [2^-1074], the smallest
    positive one, with at most 53 significant bits and below [2^1024]:
    [Finite neg u] stands for [(-1)^neg * u * 2^-1074], zero included with
    its sign.  Every operation rounds the exact result to the nearest such
    number, ties to the one with an even significand, and to an infinity
    from [2^1024 - 2^970] on. *)

Module Binary64.

Inductive t : Type :=
  | Finite (neg : bool) (u : Z)
  | Infinity (neg : bool)
  | NaN.

(** The number 1, and the bound [2^1024], counted in multiples of
    [2^-1074]. *)
Definition quantum : Z := 2 ^ 1074.
Definition overflow : Z := 2 ^ 2098.

(** The integer nearest to [n/d]; of two equally near, the even one. *)
Definition round_half_even (n d : Z) : Z :=
  let f := (n / d)%Z in
  let r := (n mod d)%Z in
  if (2 * r <? d)%Z then f
  else if (d <? 2 * r)%Z then (f + 1)%Z
  else if Z.even f then f else (f + 1)%Z.

(** The binary64 number nearest to [num/den] multiples of [2^-1074], for
    [0 <= num] and [0 < den]: the quotient is cut to 53 significant bits,
    that is to a multiple of [2^e] where [2^(e+52)] is the largest power
    of two below it ([e = 0] for the subnormal numbers), and what was cut
    decides the last bit. *)
Definition rnd (neg : bool) (num den : Z) : t :=
  let e := Z.max 0 (Z.log2 (num / den) - 52) in
  let u := (round_half_even num (den * 2 ^ e) * 2 ^ e)%Z in
  if (overflow <=? u)%Z then Infinity neg else Finite neg u.

(** The numbers of the type that are binary64 numbers. *)
Definition representable (u : Z) : Prop :=
  (0 <= u < overflow)%Z
  /\ (u mod 2 ^ Z.max 0 (Z.log2 u - 52) = 0)%Z.

Definition valid (x : t) : Prop :=
  match x with
  | Finite _ u => representable u
  | _ => True
  end.

(** [a / b] on two integers, [b] not zero: the quotient of the integers,
    rounded once ([long_true_divide]); a zero takes the sign of the
    quotient.  The quotient of a count by a total of 1 or more is below
    [2^63], far from [2^1024], where Python raises [OverflowError] and
    this definition answers an infinity. *)
Definition truediv (a b : Z) : t :=
  rnd (xorb (a <? 0)%Z (b <? 0)%Z) (Z.abs a * quantum) (Z.abs b).

(** [float(n)] for an integer, as the multiplication by [HUNDRED] converts
    it (exactly, up to [2^53]). *)
Definition of_int (n : Z) : t := rnd (n <? 0)%Z (Z.abs n * quantum) 1.

(** [x * y] *)
Definition mul (x y : t) : t :=
  match x, y with
  | NaN, _ | _, NaN => NaN
  | Infinity s, Infinity s' => Infinity (xorb s s')
  | Infinity s, Finite s' u | Finite s' u, Infinity s =>
      if (u =? 0)%Z then NaN else Infinity (xorb s s')
  | Finite s u, Finite s' u' => rnd (xorb s s') (u * u') quantum
  end.

(** The binary64 number nearest to [D * 10^x], which is what [strtod]
    makes of the digits [D] and the exponent [x]. *)
Definition of_decimal (neg : bool) (D x : Z) : t :=
  if (0 <=? x)%Z then rnd neg (D * 10 ^ x * quantum) 1
  else rnd neg (D * quantum) (10 ^ (- x)).

Definition NDIGITS_MAX : Z := 323.
Definition NDIGITS_MIN : Z := -308.

(** [round(x, ndigits)] ([float.__round__]): the exact value of [x] is
    rounded to [ndigits] decimals, ties to the even last digit, and the
    decimal number found is converted back; infinities and NaN stay.
    With two decimals the result is never out of range. *)
Definition round (x : t) (ndigits : Z) : t :=
  match x with
  | Finite neg u =>
      if (NDIGITS_MAX <? ndigits)%Z then x
      else if (ndigits <? NDIGITS_MIN)%Z then Finite neg 0
      else
        let q := if (0 <=? ndigits)%Z
                 then round_half_even (u * 10 ^ ndigits) quantum
                 else round_half_even u (quantum * 10 ^ (- ndigits)) in
        of_decimal neg q (- ndigits)
  | _ => x
  end.

(** Decimal digits. *)
Definition digit_char (d : Z) : ascii := ascii_of_N (Z.to_N (48 + d)).
Definition digit_value (c : ascii) : Z := (Z.of_N (code c) - 48)%Z.
Definition is_digit (c : ascii) : bool :=
  ((48 <=? code c) && (code c <=? 57))%N.

Fixpoint digits_aux (fuel : nat) (n : Z) (acc : string) : string :=
  let acc := String (digit_char (n mod 10)) acc in
  match fuel with
  | 0 => acc
  | S fuel => if (n <? 10)%Z then acc else digits_aux fuel (n / 10) acc
  end.

(** The decimal digits of [n], for [0 <= n]. *)
Definition digits (n : Z) : string :=
  digits_aux (Z.to_nat (Z.log2 n)) n "".

Fixpoint int_of_digits (acc : Z) (s : string) : Z :=
  match s with
  | EmptyString => acc
  | String c s' => int_of_digits (acc * 10 + digit_value c) s'
  end.

(** The exponent as [repr] prints it: a sign and two digits at least. *)
Definition exponent_text (x : Z) : string :=
  (if (x <? 0)%Z then "-" else "+")
  +:+ (if (Z.abs x <? 10)%Z then "0" else "") +:+ digits (Z.abs x).

(** The layout of [repr] ([format_float_short] with code [r]) for the
    digits [ds] of a number whose decimal point comes after the first
    [decpt] of them: with an exponent when [decpt] is below -3 or above
    16, and otherwise with the point in place, after a zero when no digit
    precedes it and before a zero when none follows. *)
Definition format_short (neg : bool) (ds : string) (decpt : Z) : string :=
  let n := String.length ds in
  (if neg then "-" else "")
  +:+ (if (decpt <=? -4)%Z || (16 <? decpt)%Z then
         substring 0 1 ds
         +:+ (if 1 <? n then "." +:+ substring 1 (n - 1) ds else "")
         +:+ "e" +:+ exponent_text (decpt - 1)
       else if (decpt <=? 0)%Z then
         "0." +:+ string_repeat "0" (Z.to_nat (- decpt)) +:+ ds
       else if (decpt <? Z.of_nat n)%Z then
         substring 0 (Z.to_nat decpt) ds +:+ "."
         +:+ substring (Z.to_nat decpt) (n - Z.to_nat decpt) ds
       else ds +:+ string_repeat "0" (Z.to_nat decpt - n) +:+ ".0").

(** The longest run of digits at the head of a string, and the rest. *)
Fixpoint span_digits (s : string) : string * string :=
  match s with
  | EmptyString => ("", "")
  | String c s' =>
      if is_digit c then
        let '(a, b) := span_digits s' in (String c a, b)
      else ("", s)
  end.

Definition all_digits (s : string) : bool :=
  match span_digits s with (_, EmptyString) => true | _ => false end.

(** The exponent part of a number: nothing, or [e] or [E], a sign if any,
    and digits. *)
Definition exponent (s : string) : option Z :=
  match s with
  | EmptyString => Some 0%Z
  | String c r =>
      if Ascii.eqb c "e" || Ascii.eqb c "E" then
        let '(neg, r) :=
          match r with
          | String "-" r' => (true, r')
          | String "+" r' => (false, r')
          | _ => (false, r)
          end in
        if nonempty r && all_digits r then
          Some (if neg then - int_of_digits 0 r else int_of_digits 0 r)%Z
        else None
      else None
  end.

(** Digits with a point among them or not, one digit at least, and an
    exponent part. *)
Definition number (neg : bool) (s : string) : option t :=
  let '(ip, s) := span_digits s in
  let '(fp, s) :=
    match s with
    | String "." r => span_digits r
    | _ => ("", s)
    end in
  if nonempty (ip +:+ fp) then
    match exponent s with
    | Some x =>
        Some (of_decimal neg (int_of_digits 0 (ip +:+ fp))
                         (x - Z.of_nat (String.length fp)))
    | None => None
    end
  else None.

Definition unsigned (neg : bool) (s : string) : option t :=
  let l := lower s in
  if String.eqb l "inf" || String.eqb l "infinity" then Some (Infinity neg)
  else if String.eqb l "nan" then Some NaN
  else number neg s.

(** [float(s)]: a sign if any, then a number or one of the names of the
    infinities and of NaN; [None] is [ValueError].  The white space and
    the underscores that [float] also accepts around and between the
    digits are not read: no text printed by [str] holds any. *)
Definition of_str (s : string) : option t :=
  match s with
  | String "-" r => unsigned true r
  | String "+" r => unsigned false r
  | _ => unsigned false s
  end.

Definition same (x y : t) : bool :=
  match x, y with
  | Finite s u, Finite s' u' => Bool.eqb s s' && (u =? u')%Z
  | Infinity s, Infinity s' => Bool.eqb s s'
  | NaN, NaN => true
  | _, _ => false
  end.

(** [float(s)] is the number [y], bit for bit. *)
Definition reads (s : string) (y : t) : bool :=
  match of_str s with Some x => same x y | None => false end.

(** [u * 2^-1074 < 10^k] *)
Definition below_power (u k : Z) : bool :=
  if (0 <=? k)%Z then (u <? 10 ^ k * quantum)%Z
  else (u * 10 ^ (- k) <? quantum)%Z.

(** The first [k] from a given one on with [u * 2^-1074 < 10^k]. *)
Fixpoint decimal_point (fuel : nat) (u k : Z) : Z :=
  match fuel with
  | 0 => k
  | S fuel => if below_power u k then k else decimal_point fuel u (k + 1)
  end.

Fixpoint strip_zeros (fuel : nat) (D x : Z) : Z * Z :=
  match fuel with
  | 0 => (D, x)
  | S fuel =>
      if (D mod 10 =? 0)%Z && negb (D =? 0)%Z
      then strip_zeros fuel (D / 10) (x + 1)
      else (D, x)
  end.

(** The text of [D * 10^x], final zeros of [D] left out. *)
Definition decimal_text (neg : bool) (D x : Z) : string :=
  let '(D, x) := strip_zeros 17 D x in
  let ds := digits D in
  format_short neg ds (x + Z.of_nat (String.length ds)).

(** The text of [u * 2^-1074] with all its digits:
    [u * 2^-1074 = u * 5^1074 * 10^-1074]. *)
Definition exact_text (neg : bool) (u : Z) : string :=
  let ds := digits (u * 5 ^ 1074) in
  format_short neg ds (Z.of_nat (String.length ds) - 1074).

(** The shortest decimal text that [float] reads as [u * 2^-1074], which
    lies below [10^k]: with [n] digits, [n + 1] digits, ..., the two
    decimals of that many digits around the number are tried, the nearer
    one first (the even one when they are equally near).  Seventeen digits
    tell any two binary64 numbers apart, so the search ends there; the
    text with all the digits closes the definition. *)
Fixpoint shortest (fuel n : nat) (neg : bool) (u k : Z) : string :=
  match fuel with
  | 0 => exact_text neg u
  | S fuel =>
      let x := (k - Z.of_nat n)%Z in
      let '(num, den) :=
        if (0 <=? x)%Z then (u, quantum * 10 ^ x)%Z
        else (u * 10 ^ (- x), quantum)%Z in
      let lo := (num / den)%Z in
      let r := (num mod den)%Z in
      let lo_first :=
        (2 * r <? den)%Z || ((2 * r =? den)%Z && Z.even lo) in
      let a := decimal_text neg (if lo_first then lo else lo + 1) x in
      let b := decimal_text neg (if lo_first then lo + 1 else lo) x in
      if reads a (Finite neg u) then a
      else if reads b (Finite neg u) then b
      else shortest fuel (S n) neg u k
  end.

(** [str(x)], which is [repr(x)]: the shortest text that reads back as
    [x].  The search for the decimal point starts below it, at an
    estimate by the number of bits. *)
Definition str (x : t) : string :=
  match x with
  | NaN => "nan"
  | Infinity neg => if neg then "-inf" else "inf"
  | Finite neg u =>
      if (u =? 0)%Z then format_short neg "0" 1
      else
        let start := ((Z.log2 u - 1074) * 30103 / 100000 - 1)%Z in
        shortest 17 1 neg u (decimal_point 8 u start)
  end.

(** [x == y]: the two zeros are equal, NaN equals nothing. *)
Definition eq (x y : t) : bool :=
  match x, y with
  | Finite s u, Finite s' u' =>
      ((u =? 0) && (u' =? 0))%Z || (Bool.eqb s s' && (u =? u')%Z)
  | Infinity s, Infinity s' => Bool.eqb s s'
  | _, _ => false
  end.

Definition instance : PyFloat :=
  {| float := t;
     int_truediv := truediv;
     float_mul_int := fun x n => mul x (of_int n);
     float_round := round;
     float_str := str;
     float_of_str := of_str |}.

End Binary64.

(** ** The console reports

    [print_progress_bar] (lines 99-120), [print_longest_word] (259-272)
    and [print_distinct_words] (275-286). *)

(** [PROGRESS_BAR_LENGTH = MAX_SUPPLY / THOUSAND] is the float 5.0; the
    lengths compared with it are integers, which it meets exactly. *)
Definition PROGRESS_BAR_LENGTH : Z := (MAX_SUPPLY / THOUSAND)%Z.

(** [while len(progress_bar) <= PROGRESS_BAR_LENGTH: progress_bar += '_'] *)
Equations? pad_bar (progress_bar : string) : string
  by wf (Z.to_nat (PROGRESS_BAR_LENGTH + 1
                   - Z.of_nat (String.length progress_bar))) lt :=
  pad_bar progress_bar
    with Z_le_dec (Z.of_nat (String.length progress_bar))
                  PROGRESS_BAR_LENGTH := {
    | left _ => pad_bar (progress_bar +:+ "_")
    | right _ => progress_bar }.
Proof.
  assert (Hlen : forall s, String.length (s +:+ "_") = S (String.length s)).
  { intros s. induction s as [|c s IH]; [reflexivity|].
    change (S (String.length (s +:+ "_")) = S (S (String.length s))).
    rewrite IH. reflexivity. }
  rewrite Hlen. lia.
Qed.

(** The text between ["PROGRESS: "] and the end of the line;
    [range(0, count)] is empty for a [count] below 1. *)
Definition progress_bar (count : Z) : string :=
  let progress_bar := "[" in
  let progress_bar :=
    Nat.iter (Z.to_nat count) (fun bar => bar +:+ "#") progress_bar in
  let progress_bar := pad_bar progress_bar in
  progress_bar +:+ "]".

Definition print_progress_bar (count : Z) : string :=
  "PROGRESS: " +:+ progress_bar count.

(** The word that [print_longest_word] prints. *)
Definition longest_word (word_data : list string) : string :=
  fold_left (fun longest_word word =>
               if String.length longest_word <? String.length word
               then word else longest_word)
            word_data "".

(** [len(list(set(word_data)))] *)
Definition num_distinct_words (word_data : list string) : nat :=
  size (list_to_set word_data : gset string).

(** The lines of [print_distinct_words]; the second [print] ends in a
    newline of its own, which leaves an empty line. *)
Definition print_distinct_words (word_data : list string) : list string :=
  ["NUMBER OF DISTINCT WORDS: "
     +:+ str_int (Z.of_nat (num_distinct_words word_data));
   "TOTAL WORDS: " +:+ str_int (Z.of_nat (length word_data));
   ""].

(** ** Notions used to state the properties *)

Section Positions.
Context {K : Type} `{EqDecision K}.

(** The position at which [k] is met for the first time in [data]
    (the length of [data] when it never is). *)
Fixpoint first_index (k : K) (data : list K) : nat :=
  match data with
  | [] => 0
  | x :: data' => if decide (x = k) then 0 else S (first_index k data')
  end.

(** How many times [k] occurs in [data]. *)
Fixpoint occurrences (k : K) (data : list K) : nat :=
  match data with
  | [] => 0
  | x :: data' => (if decide (x = k) then 1 else 0) + occurrences k data'
  end.
End Positions.

(** The page requests of a run, each with its offset and its limit, and
    the identifiers the contract was asked for, in order. *)
Definition requests (t : list event) : list (Z * Z) :=
  omap (fun e => match e with ERequest o l => Some (o, l) | _ => None end) t.

Definition calls (t : list event) : list Z :=
  omap (fun e => match e with ECall i => Some i | _ => None end) t.

(** A string without its final character. *)
Fixpoint remove_last (s : string) : string :=
  match s with
  | EmptyString => EmptyString
  | String c EmptyString => EmptyString
  | String c s' => String c (remove_last s')
  end.

(** The text before a trailing [%]. *)
Fixpoint strip_percent (s : string) : option string :=
  match s with
  | EmptyString => None
  | String c EmptyString => if Ascii.eqb c "%" then Some EmptyString else None
  | String c s' => String c <$> strip_percent s'
  end.

Definition parse_percentage `{PyFloat} (s : string) : option float :=
  strip_percent s ≫= float_of_str.

(** Ascending in [key]; among equal keys, ordered by [tie]. *)
Definition lex_order {A} (key : A -> nat) (tie : A -> A -> Prop) (a b : A)
    : Prop :=
  key a < key b \/ (key a = key b /\ tie a b).

(** The record [get_rarity] builds for one item of the counter. *)
Definition record_of `{PyFloat} {K : Type} `{Countable K}
    (mapping : gmap K (list Z)) (total : Z) (item : K * nat) : RarityRecord K :=
  (item.1, item.2, rarity_text item.2 total, mapping_get mapping item.1).

(** The order in which keys are met for the first time in [data]. *)
Definition met_before {K : Type} `{EqDecision K} (data : list K)
    (a b : RarityRecord K) : Prop :=
  first_index (record_key a) data < first_index (record_key b) data.

(** The tokens of a fetched string, and the state after a list of
    identifiers with their fetched strings. *)
Definition tokens_of (text : string) : list string :=
  tokenize (normalize text).

Definition aggregate_all (fetched : list (Z * string)) (st : organize_state)
    : organize_state :=
  fold_left (fun st p => aggregate p.1 p.2 st) fetched st.

(** Three identifiers and their strings, two of them equal; and a
    collection of the full size in which every string is the same. *)
Definition three_texts (token_id : Z) : option string :=
  if (token_id =? 10)%Z then Some "The cat sat."
  else if (token_id =? 20)%Z then Some "The dog sat."
  else if (token_id =? 30)%Z then Some "The cat sat."
  else None.

Definition same_text (token_id : Z) : option string := Some "So it goes.".

Definition full_collection : list Z := Z.of_nat <$> seq 1 5000.

(** Whether a run came to its end. *)
Definition returned {A} (m : run A) : bool :=
  match m.2 with Some _ => true | None => false end.

(** The characters of a string; the characters the tokenizer keeps; the
    strings made of kept characters only, one at least. *)
Definition chars (s : string) : list ascii := list_ascii_of_string s.

Definition retained (c : ascii) : bool := negb (class_matches REGEX c).

Definition good (bad : ascii -> bool) (w : string) : Prop :=
  w <> EmptyString /\ Forall (fun c => bad c = false) (chars w).

(** [int(s)] on the decimal text of an integer. *)
Definition int_of_str (s : string) : option Z :=
  Z.of_int <$> NilZero.int_of_string s.

Definition digit_or_minus (c : ascii) : bool :=
  ((48 <=? code c) && (code c <=? 57))%N || Ascii.eqb c "-".




(** A world in which every call that raises raises a [SolidityError], and
    one in which every file is written to its end. *)
Definition solidity_errors (token_id : Z) : exn := SolidityError.

Definition sound_disk (filename : string) (lines : list string)
    : write_outcome := Written.

(** The strings of decimal digits, and the strings at which a run of
    digits ends. *)
Definition digit_string (s : string) : Prop :=
  Forall (fun c => Binary64.is_digit c = true) (chars s).

Definition stops (rest : string) : Prop :=
  match rest with
  | EmptyString => True
  | String c _ => Binary64.is_digit c = false
  end.

(** An index that answers every offset with fifty identifiers of its
    own. *)
Definition fifty_per_page (offset : Z) : option (list Z) :=
  Some ((fun j => (offset + Z.of_nat j)%Z) <$> seq 0 50).

(** * Properties *)

(** ** Dictionaries and counters *)

Section DictFacts.
Context {K V : Type} `{EqDecision K}.
Implicit Types (d : list (K * V)) (k : K) (v : V).

Lemma dict_get_set d k v k' :
  dict_get (dict_set k v d) k'
  = if decide (k' = k) then Some v else dict_get d k'.
Proof.
  induction d as [|[k0 v0] d IH]; simpl.
  - destruct (decide (k' = k)); reflexivity.
  - destruct (decide (k = k0)) as [->|Hne]; simpl.
    + destruct (decide (k' = k0)); reflexivity.
    + rewrite IH. destruct (decide (k' = k0)) as [->|]; [|reflexivity].
      destruct (decide (k0 = k)); congruence.
Qed.

Lemma dict_get_None d k : dict_get d k = None <-> k ∉ d.*1.
Proof.
  induction d as [|[k0 v0] d IH]; simpl.
  - split; [intros _; apply not_elem_of_nil | reflexivity].
  - rewrite not_elem_of_cons. destruct (decide (k = k0)); split;
      try tauto; try discriminate; intros; tauto.
Qed.

Lemma dict_set_keys d k v :
  (dict_set k v d).*1 = if decide (k ∈ d.*1) then d.*1 else d.*1 ++ [k].
Proof.
  induction d as [|[k0 v0] d IH].
  - cbn. destruct (decide (k ∈ [])) as [Hin|]; [inversion Hin | reflexivity].
  - cbn [dict_set]. rewrite fmap_cons. cbn [fst].
    destruct (decide (k = k0)) as [->|Hne].
    + clear IH. rewrite fmap_cons. cbn [fst].
      destruct (decide (k0 ∈ k0 :: d.*1)) as [|Hn]; [reflexivity|].
      exfalso; apply Hn; left.
    + rewrite fmap_cons, IH. cbn [fst]. clear IH.
      destruct (decide (k ∈ d.*1)), (decide (k ∈ k0 :: d.*1)) as [Hin|Hn];
        try reflexivity; exfalso.
      * apply Hn; right; assumption.
      * apply elem_of_cons in Hin as [?|?]; contradiction.
Qed.

Lemma dict_get_elem_of d k v :
  NoDup d.*1 -> (k, v) ∈ d -> dict_get d k = Some v.
Proof.
  induction d as [|[k0 v0] d IH]; simpl; intros Hnd Hin.
  - inversion Hin.
  - apply NoDup_cons in Hnd as [Hk0 Hnd].
    apply elem_of_cons in Hin as [Heq|Hin].
    + inversion Heq; subst. destruct (decide (k0 = k0)); congruence.
    + destruct (decide (k = k0)) as [->|]; [|auto].
      exfalso; apply Hk0. apply list_elem_of_fmap. exists (k0, v); auto.
Qed.
End DictFacts.

Section PositionFacts.
Context {K : Type} `{EqDecision K}.
Implicit Types (k : K) (data : list K).

Lemma first_index_lt k data : k ∈ data -> first_index k data < length data.
Proof.
  induction data as [|x data IH]; intros Hin; [inversion Hin|].
  simpl. destruct (decide (x = k)); [lia|].
  apply elem_of_cons in Hin as [?|?]; [congruence|].
  specialize (IH ltac:(assumption)). lia.
Qed.

Lemma first_index_app_l k data data' :
  k ∈ data -> first_index k (data ++ data') = first_index k data.
Proof.
  induction data as [|x data IH]; intros Hin; [inversion Hin|].
  simpl. destruct (decide (x = k)); [reflexivity|].
  apply elem_of_cons in Hin as [?|?]; [congruence|]. f_equal; auto.
Qed.

Lemma first_index_app_r k data data' :
  k ∉ data ->
  first_index k (data ++ data') = length data + first_index k data'.
Proof.
  induction data as [|x data IH]; intros Hin; [reflexivity|].
  apply not_elem_of_cons in Hin as [? ?].
  simpl. destruct (decide (x = k)); [congruence|]. f_equal; auto.
Qed.

Lemma occurrences_app k data data' :
  occurrences k (data ++ data') = occurrences k data + occurrences k data'.
Proof. induction data as [|x data IH]; simpl; [reflexivity | lia]. Qed.

Lemma occurrences_zero k data : occurrences k data = 0 <-> k ∉ data.
Proof.
  induction data as [|x data IH]; simpl.
  - split; [intros _; apply not_elem_of_nil | reflexivity].
  - rewrite not_elem_of_cons, <- IH.
    destruct (decide (x = k)) as [->|Hne]; split.
    + intros; lia.
    + intros [? _]; congruence.
    + intros; split; [congruence | lia].
    + intros [_ ?]; lia.
Qed.

Lemma occurrences_concat k (ls : list (list K)) :
  occurrences k (concat ls) = sum_list_with (occurrences k) ls.
Proof.
  induction ls as [|l ls IH]; simpl; [reflexivity|].
  rewrite occurrences_app; lia.
Qed.
End PositionFacts.

Section CounterFacts.
Context {K : Type} `{EqDecision K}.
Implicit Types (k : K) (data : list K).

Lemma Counter_snoc data k :
  Counter (data ++ [k]) = counter_add (Counter data) k.
Proof. unfold Counter. rewrite fold_left_app. reflexivity. Qed.

Lemma Counter_get data k :
  dict_get (Counter data) k
  = if decide (k ∈ data) then Some (occurrences k data) else None.
Proof.
  induction data as [|x data IH] using rev_ind.
  - simpl. destruct (decide (k ∈ [])) as [Hin|]; [inversion Hin|reflexivity].
  - rewrite Counter_snoc. unfold counter_add. rewrite dict_get_set.
    rewrite occurrences_app. simpl.
    destruct (decide (k = x)) as [->|Hne].
    + destruct (decide (x ∈ data ++ [x])) as [_|Hn].
      2:{ exfalso; apply Hn, elem_of_app; right; left. }
      rewrite IH. destruct (decide (x = x)); [|congruence].
      destruct (decide (x ∈ data)) as [|Hn]; simpl; [f_equal; lia|].
      apply occurrences_zero in Hn. rewrite Hn. reflexivity.
    + rewrite IH. destruct (decide (x = k)); [congruence|].
      destruct (decide (k ∈ data)), (decide (k ∈ data ++ [x])) as [Hin|Hn].
      * f_equal; lia.
      * exfalso; apply Hn, elem_of_app; auto.
      * exfalso. apply elem_of_app in Hin as [?|Hin]; [contradiction|].
        apply list_elem_of_singleton in Hin. congruence.
      * reflexivity.
Qed.

Lemma Counter_keys_elem_of data k : k ∈ (Counter data).*1 <-> k ∈ data.
Proof.
  pose proof (Counter_get data k) as Hg.
  pose proof (dict_get_None (Counter data) k) as Hn.
  destruct (decide (k ∈ data)); rewrite Hg in Hn; split; intros; try tauto.
  destruct (decide (k ∈ (Counter data).*1)); [assumption|].
  exfalso. assert (Some (occurrences k data) = None) by tauto.
  discriminate.
Qed.

Lemma Counter_keys_snoc data k :
  (Counter (data ++ [k])).*1
  = if decide (k ∈ data) then (Counter data).*1 else (Counter data).*1 ++ [k].
Proof.
  rewrite Counter_snoc. unfold counter_add. rewrite dict_set_keys.
  destruct (decide (k ∈ (Counter data).*1)) as [Hin|Hn], (decide (k ∈ data));
    try reflexivity; exfalso.
  - apply (proj1 (Counter_keys_elem_of _ _)) in Hin. contradiction.
  - apply Hn, Counter_keys_elem_of. assumption.
Qed.

Lemma Counter_keys_NoDup data : NoDup (Counter data).*1.
Proof.
  induction data as [|x data IH] using rev_ind; [constructor|].
  rewrite Counter_keys_snoc. destruct (decide (x ∈ data)); [assumption|].
  apply NoDup_app. split; [assumption|]. split; [|apply NoDup_singleton].
  intros y Hy Hx. apply list_elem_of_singleton in Hx as ->.
  apply (proj1 (Counter_keys_elem_of _ _)) in Hy. contradiction.
Qed.

Lemma Counter_elem_of data k v :
  (k, v) ∈ Counter data -> k ∈ data /\ v = occurrences k data.
Proof.
  intros Hin. apply dict_get_elem_of in Hin; [|apply Counter_keys_NoDup].
  rewrite Counter_get in Hin. destruct (decide (k ∈ data)); [|discriminate].
  split; congruence.
Qed.

(** The keys of a counter come in the order of their first occurrence. *)
Lemma Counter_keys_order data :
  StronglySorted (fun a b => first_index a data < first_index b data)
                 (Counter data).*1.
Proof.
  induction data as [|x data IH] using rev_ind; [constructor|].
  assert (Hold : StronglySorted
            (fun a b => first_index a (data ++ [x])
                        < first_index b (data ++ [x])) (Counter data).*1).
  { assert (Hall : Forall (fun a => a ∈ data) (Counter data).*1).
    { apply Forall_forall. intros a. apply Counter_keys_elem_of. }
    revert IH Hall. generalize (Counter data).*1 as ks.
    induction ks as [|a ks IHks]; intros Hs Hall; [constructor|].
    apply StronglySorted_inv in Hs as [Hs Ha].
    apply Forall_cons in Hall as [Hain Hall].
    constructor; [auto|].
    rewrite Forall_forall in *. intros b Hb.
    rewrite !first_index_app_l by auto. auto. }
  rewrite Counter_keys_snoc. destruct (decide (x ∈ data)); [assumption|].
  apply StronglySorted_app. split; [|split; [assumption | repeat constructor]].
  intros a b Ha Hb. apply list_elem_of_singleton in Hb as ->.
  apply (proj1 (Counter_keys_elem_of _ _)) in Ha.
  rewrite first_index_app_l, first_index_app_r by assumption.
  pose proof (first_index_lt a data Ha). lia.
Qed.

Lemma Counter_sum data :
  sum_list_with snd (Counter data) = length data.
Proof.
  induction data as [|x data IH] using rev_ind; [reflexivity|].
  rewrite Counter_snoc, length_app. simpl. rewrite <- IH.
  unfold counter_add. generalize (Counter data) as c. clear IH.
  induction c as [|[k0 v0] c IHc]; simpl; [reflexivity|].
  destruct (decide (x = k0)); simpl; [lia|]. rewrite IHc. lia.
Qed.
End CounterFacts.

(** ** The stable sort *)

Section SortedFacts.
Context {A : Type} (key : A -> nat).

Lemma insert_by_perm x l : insert_by key x l ≡ₚ x :: l.
Proof.
  induction l as [|y l IH]; simpl; [reflexivity|].
  destruct (key x <=? key y); [reflexivity|].
  rewrite IH. apply Permutation_swap.
Qed.

Lemma sorted_perm l : sorted key l ≡ₚ l.
Proof.
  induction l as [|x l IH]; simpl; [reflexivity|].
  rewrite insert_by_perm, IH. reflexivity.
Qed.

Lemma elem_of_sorted x l : x ∈ sorted key l <-> x ∈ l.
Proof. rewrite sorted_perm. reflexivity. Qed.

Section Stable.
Context (tie : A -> A -> Prop).

Lemma insert_by_stable x l :
  StronglySorted (lex_order key tie) l ->
  Forall (tie x) l ->
  StronglySorted (lex_order key tie) (insert_by key x l).
Proof.
  induction l as [|y l IH]; simpl; intros Hs Hx.
  - repeat constructor.
  - apply StronglySorted_inv in Hs as [Hs Hy].
    apply Forall_cons in Hx as [Hxy Hx].
    destruct (Nat.leb_spec (key x) (key y)) as [Hle|Hlt].
    + constructor; [constructor; assumption|].
      constructor.
      * unfold lex_order. destruct (decide (key x = key y)); [auto|].
        left; lia.
      * rewrite Forall_forall in *. intros z Hz.
        specialize (Hy z Hz). specialize (Hx z Hz).
        unfold lex_order in *. destruct (decide (key x = key z)); [auto|].
        left; lia.
    + constructor; [auto|].
      rewrite insert_by_perm.
      constructor; [left; assumption | assumption].
Qed.

(** A list ordered by [tie] comes out ordered by key, and by [tie]
    where the keys are equal. *)
Lemma sorted_stable l :
  StronglySorted tie l ->
  StronglySorted (lex_order key tie) (sorted key l).
Proof.
  induction l as [|x l IH]; simpl; intros Hs; [constructor|].
  apply StronglySorted_inv in Hs as [Hs Hx].
  apply insert_by_stable; [auto|].
  rewrite Forall_forall in *. intros y Hy. apply Hx.
  apply elem_of_sorted. assumption.
Qed.
(** No other list qualifies: a permutation of [l] that is ordered by
    key, with equal keys in the order [tie] they have in [l], is
    [sorted key l]. *)
Lemma sorted_unique l l' :
  (forall a b, a ∈ l -> b ∈ l -> tie a b -> tie b a -> a = b) ->
  StronglySorted tie l ->
  l' ≡ₚ l ->
  StronglySorted (lex_order key tie) l' ->
  l' = sorted key l.
Proof.
  intros Hanti Hl Hperm Hl'.
  apply (StronglySorted_unique_strong (lex_order key tie)).
  - intros a b Ha Hb [Hlt|[Heq Hab]] [Hlt'|[Heq' Hba]]; try lia.
    apply Hanti; [rewrite <- Hperm; exact Ha | apply elem_of_sorted, Hb
                 | exact Hab | exact Hba].
  - exact Hl'.
  - apply sorted_stable. exact Hl.
  - rewrite Hperm, sorted_perm. reflexivity.
Qed.
End Stable.
End SortedFacts.

Lemma StronglySorted_fmap_inv {A B} (f : A -> B) (R : B -> B -> Prop)
    (l : list A) :
  StronglySorted R (f <$> l) -> StronglySorted (fun a b => R (f a) (f b)) l.
Proof.
  induction l as [|x l IH]; [constructor|].
  rewrite fmap_cons. intros [Hs Hx]%StronglySorted_inv.
  constructor; [auto|]. rewrite Forall_fmap in Hx. exact Hx.
Qed.

Lemma StronglySorted_lookup {A} (P : A -> A -> Prop) (l : list A) i j a b :
  StronglySorted P l -> i < j -> l !! i = Some a -> l !! j = Some b -> P a b.
Proof.
  intros Hs. revert i j. induction Hs as [|x l Hs IH Hx]; intros i j Hij Ha Hb.
  - discriminate.
  - destruct j as [|j]; [lia|]. simpl in Hb. destruct i as [|i].
    + simpl in Ha. injection Ha as <-.
      rewrite Forall_forall in Hx. apply Hx.
      eapply list_elem_of_lookup_2; eassumption.
    + simpl in Ha. apply (IH i j); [lia | assumption..].
Qed.

(** ** [get_rarity] *)

Section GetRarityFacts.
Context `{PyFloat} {K : Type} `{Countable K}.
Implicit Types (data : list K) (mapping : gmap K (list Z)) (total : Z).
Implicit Types (items : list (K * nat)) (rarity : list (K * string)).

Lemma rarity_loop_spec total items rarity :
  total <> 0%Z ->
  exists rarity',
    rarity_loop total items rarity = Some rarity'
    /\ (forall k, k ∉ items.*1 -> dict_get rarity' k = dict_get rarity k)
    /\ (NoDup items.*1 -> forall k v, (k, v) ∈ items ->
         dict_get rarity' k = Some (rarity_text v total)).
Proof.
  intros Hnz. revert rarity.
  induction items as [|[k0 v0] items IH]; intros rarity; simpl.
  - exists rarity. split; [reflexivity|]. split; [reflexivity|].
    intros _ k v Hin. inversion Hin.
  - destruct (Z.eqb_spec total 0) as [|_]; [contradiction|].
    destruct (IH (dict_set k0 (rarity_text v0 total) rarity))
      as (r' & Hr' & Hout & Hin).
    exists r'. split; [assumption|]. split.
    + intros k Hk. apply not_elem_of_cons in Hk as [Hne Hk].
      rewrite Hout, dict_get_set by assumption.
      destruct (decide (k = k0)); [contradiction | reflexivity].
    + intros Hnd k v Hkv. apply NoDup_cons in Hnd as [Hk0 Hnd].
      apply elem_of_cons in Hkv as [Heq|Hkv]; [|auto].
      injection Heq as -> ->.
      rewrite Hout, dict_get_set by assumption.
      destruct (decide (k0 = k0)); [reflexivity | congruence].
Qed.

Lemma rarity_loop_zero items rarity :
  rarity_loop 0 items rarity = match items with [] => Some rarity | _ => None end.
Proof. destruct items as [|[k v] items]; reflexivity. Qed.

(** Whenever [get_rarity] returns, it returns the sorted records of the
    counter. *)
Lemma get_rarity_inv data mapping total out :
  get_rarity data mapping total = Some out ->
  out = sorted occurrenceCount (record_of mapping total <$> Counter data).
Proof.
  unfold get_rarity. destruct (decide (total = 0%Z)) as [->|Hnz].
  - rewrite rarity_loop_zero. destruct (Counter data); [|discriminate].
    intros [= <-]. reflexivity.
  - destruct (rarity_loop_spec total (Counter data) [] Hnz)
      as (r' & -> & _ & Hin).
    intros [= <-]. f_equal. apply map_ext_in. intros [k v] Hkv.
    unfold record_of, rarity_get. simpl.
    rewrite (Hin (Counter_keys_NoDup data) k v); [reflexivity|].
    apply list_elem_of_In. assumption.
Qed.

(** It returns unless it has to divide by zero. *)
Lemma get_rarity_returns data mapping total :
  total <> 0%Z \/ data = [] ->
  exists out, get_rarity data mapping total = Some out.
Proof.
  unfold get_rarity. intros [Hnz| ->].
  - destruct (rarity_loop_spec total (Counter data) [] Hnz) as (r' & -> & _).
    eauto.
  - simpl. eauto.
Qed.

Lemma get_rarity_sum data mapping total out :
  get_rarity data mapping total = Some out ->
  sum_list_with occurrenceCount out = length data.
Proof.
  intros ->%get_rarity_inv. rewrite sorted_perm.
  rewrite <- (Counter_sum data).
  induction (Counter data) as [|[k v] c IH]; simpl; [reflexivity|].
  f_equal. exact IH.
Qed.

Lemma get_rarity_elem_of data mapping total out x :
  get_rarity data mapping total = Some out ->
  x ∈ out ->
  record_key x ∈ data
  /\ occurrenceCount x = occurrences (record_key x) data
  /\ rarityPercentage x = rarity_text (occurrenceCount x) total
  /\ record_ids x = mapping_get mapping (record_key x).
Proof.
  intros ->%get_rarity_inv Hx. apply elem_of_sorted in Hx.
  apply list_elem_of_fmap in Hx as ([k v] & -> & Hkv).
  apply Counter_elem_of in Hkv as [Hk ->]. auto.
Qed.

Lemma get_rarity_stable data mapping total out :
  get_rarity data mapping total = Some out ->
  StronglySorted (lex_order occurrenceCount (met_before data)) out.
Proof.
  intros ->%get_rarity_inv. apply sorted_stable.
  pose proof (StronglySorted_fmap_inv fst _ _ (Counter_keys_order data))
    as Hs.
  eapply StronglySorted_fmap; [|exact Hs].
  intros [k1 v1] [k2 v2] Hlt. exact Hlt.
Qed.
End GetRarityFacts.

(** ** Runs *)

Lemma bind_Some {A B} (m : run A) (k : A -> run B) t b :
  bind m k = (t, Some b) ->
  exists t1 a t2, m = (t1, Some a) /\ k a = (t2, Some b) /\ t = t1 ++ t2.
Proof.
  destruct m as [t1 [a|]]; simpl; [|discriminate].
  destruct (k a) as [t2 r] eqn:Hk. intros [= <- ->]. eauto 6.
Qed.

Lemma returned_true {A} (m : run A) :
  returned m = true -> exists t a, m = (t, Some a).
Proof. destruct m as [t [a|]]; [eauto | discriminate]. Qed.

Lemma bind_emit {B} (e : event) (k : unit -> run B) :
  bind (emit e) k = (e :: (k tt).1, (k tt).2).
Proof. unfold bind, emit. destruct (k tt); reflexivity. Qed.

Lemma bind_pair {A B} (t : list event) (a : A) (k : A -> run B) :
  bind (t, Some a) k = (t ++ (k a).1, (k a).2).
Proof. unfold bind. destruct (k a); reflexivity. Qed.

Lemma bind_ret {A B} (a : A) (k : A -> run B) : bind (ret a) k = k a.
Proof. unfold bind, ret. destruct (k a); reflexivity. Qed.

(** ** The aggregator *)

Section MappingFacts.
Context {K : Type} `{Countable K}.
Implicit Types (m : gmap K (list Z)) (k : K).

Lemma mapping_get_append m k v k' :
  mapping_get (mapping_append m k v) k'
  = if decide (k' = k) then mapping_get m k ++ [v] else mapping_get m k'.
Proof.
  unfold mapping_append, mapping_get at 1.
  destruct (decide (k' = k)) as [->|Hne].
  - rewrite lookup_insert_eq. reflexivity.
  - rewrite lookup_insert_ne by congruence. reflexivity.
Qed.

Lemma mapping_get_append_all m (ks : list K) v k :
  mapping_get (fold_left (fun m k => mapping_append m k v) ks m) k
  = mapping_get m k ++ replicate (occurrences k ks) v.
Proof.
  revert m. induction ks as [|k0 ks IH]; intros m; simpl.
  - rewrite app_nil_r. reflexivity.
  - rewrite IH, mapping_get_append.
    destruct (decide (k = k0)) as [->|Hne].
    + destruct (decide (k0 = k0)); [|congruence].
      rewrite <- app_assoc. reflexivity.
    + destruct (decide (k0 = k)); [congruence | reflexivity].
Qed.
End MappingFacts.

Section AggregateFacts.
Implicit Types (fetched : list (Z * string)) (st : organize_state).

Lemma aggregate_all_snoc fetched p st :
  aggregate_all (fetched ++ [p]) st
  = aggregate p.1 p.2 (aggregate_all fetched st).
Proof. unfold aggregate_all. rewrite fold_left_app. reflexivity. Qed.

Lemma aggregate_all_words fetched st :
  output_words (aggregate_all fetched st)
  = output_words st ++ ((fun p => tokens_of p.2) <$> fetched).
Proof.
  induction fetched as [|p fetched IH] using rev_ind.
  - simpl. rewrite app_nil_r. reflexivity.
  - rewrite aggregate_all_snoc, fmap_app. simpl. rewrite IH, app_assoc.
    reflexivity.
Qed.

Lemma aggregate_all_counts fetched st :
  output_total_word_counts (aggregate_all fetched st)
  = output_total_word_counts st
    ++ ((fun p => length (tokens_of p.2)) <$> fetched).
Proof.
  induction fetched as [|p fetched IH] using rev_ind.
  - simpl. rewrite app_nil_r. reflexivity.
  - rewrite aggregate_all_snoc, fmap_app. simpl. rewrite IH, app_assoc.
    reflexivity.
Qed.

Lemma aggregate_all_texts fetched st :
  output_complete_texts (aggregate_all fetched st)
  = output_complete_texts st ++ ((fun p => normalize p.2) <$> fetched).
Proof.
  induction fetched as [|p fetched IH] using rev_ind.
  - simpl. rewrite app_nil_r. reflexivity.
  - rewrite aggregate_all_snoc, fmap_app. simpl. rewrite IH, app_assoc.
    reflexivity.
Qed.

Lemma aggregate_all_word_to_token_id fetched st word :
  mapping_get (output_word_to_token_id (aggregate_all fetched st)) word
  = mapping_get (output_word_to_token_id st) word
    ++ (fetched ≫= fun p => replicate (occurrences word (tokens_of p.2)) p.1).
Proof.
  induction fetched as [|p fetched IH] using rev_ind.
  - simpl. rewrite app_nil_r. reflexivity.
  - rewrite aggregate_all_snoc, bind_app. simpl.
    rewrite mapping_get_append_all, IH, app_nil_r, app_assoc. reflexivity.
Qed.

Lemma aggregate_all_count_to_token_id fetched st n :
  mapping_get (output_total_word_count_to_token_id (aggregate_all fetched st)) n
  = mapping_get (output_total_word_count_to_token_id st) n
    ++ (filter (fun p => length (tokens_of p.2) = n) fetched).*1.
Proof.
  induction fetched as [|p fetched IH] using rev_ind.
  - simpl. rewrite app_nil_r. reflexivity.
  - rewrite aggregate_all_snoc, filter_app, fmap_app. simpl.
    rewrite mapping_get_append, filter_cons, filter_nil.
    fold (tokens_of p.2).
    destruct (decide (n = length (tokens_of p.2))) as [Heq|Hne],
             (decide (length (tokens_of p.2) = n)); try congruence.
    + rewrite <- Heq, IH, app_assoc. reflexivity.
    + rewrite IH, app_nil_r. reflexivity.
Qed.

Lemma aggregate_all_text_to_token_id fetched st text :
  mapping_get (output_complete_text_to_token_id (aggregate_all fetched st)) text
  = mapping_get (output_complete_text_to_token_id st) text
    ++ (filter (fun p => normalize p.2 = text) fetched).*1.
Proof.
  induction fetched as [|p fetched IH] using rev_ind.
  - simpl. rewrite app_nil_r. reflexivity.
  - rewrite aggregate_all_snoc, filter_app, fmap_app. simpl.
    rewrite mapping_get_append, filter_cons, filter_nil.
    destruct (decide (text = normalize p.2)) as [Heq|Hne],
             (decide (normalize p.2 = text)); try congruence.
    + rewrite <- Heq, IH, app_assoc. reflexivity.
    + rewrite IH, app_nil_r. reflexivity.
Qed.
End AggregateFacts.

Section OrganizeFacts.
Variable getString : Z -> option string.
Variable raised : Z -> exn.

Lemma organize_loop_Some claimed : forall i st tr st',
  organize_loop getString raised i claimed st = (tr, Some st') ->
  exists texts,
    Forall2 (fun id text => getString id = Some text) claimed texts
    /\ st' = aggregate_all (zip claimed texts) st
    /\ calls tr = claimed.
Proof.
  induction claimed as [|id rest IH]; intros i st tr st' Hrun.
  - injection Hrun as <- <-. exists []. repeat split. constructor.
  - cbn [organize_loop] in Hrun.
    apply bind_Some in Hrun as (t1 & [] & t2 & [= <-] & Hrun & ->).
    destruct (getString id) as [text|] eqn:Hg;
      [|destruct (raised id); discriminate].
    apply bind_Some in Hrun as (t3 & [] & t4 & Hp & Hrun & ->).
    apply bind_Some in Hrun as (t5 & [] & t6 & [= <-] & Hrun & ->).
    apply IH in Hrun as (texts & Hall & -> & Hcalls).
    exists (text :: texts). split; [constructor; assumption|].
    split; [reflexivity|].
    assert (calls t3 = []) as Ht3.
    { destruct (decide _); injection Hp as <-; reflexivity. }
    unfold calls in *. rewrite !omap_app, Ht3, Hcalls. reflexivity.
Qed.

Lemma organize_text_data_Some claimed tr o :
  organize_text_data getString raised claimed = (tr, Some o) ->
  exists texts,
    Forall2 (fun id text => getString id = Some text) claimed texts
    /\ o = organize_result (aggregate_all (zip claimed texts) organize_init)
    /\ calls tr = claimed.
Proof.
  unfold organize_text_data. intros Hrun.
  apply bind_Some in Hrun as (t1 & st & t2 & Hloop & [= <- <-] & ->).
  apply organize_loop_Some in Hloop as (texts & Hall & -> & Hcalls).
  exists texts. rewrite app_nil_r. auto.
Qed.

(** The run ends early only if a call fails. *)
Lemma organize_loop_returns claimed : forall i st,
  Forall (fun id => is_Some (getString id)) claimed ->
  exists tr st', organize_loop getString raised i claimed st = (tr, Some st').
Proof.
  induction claimed as [|id rest IH]; intros i st Hall.
  - eexists _, _. reflexivity.
  - apply Forall_cons in Hall as [[text Hg] Hall].
    cbn [organize_loop]. rewrite Hg.
    destruct (IH (i + 1)%Z (aggregate id text st) Hall) as (tr & st' & Hrec).
    unfold bind at 1 2 3. cbn [emit]. 
    destruct (decide _); cbn [emit ret]; rewrite Hrec; eexists _, _;
      reflexivity.
Qed.
Lemma organize_text_data_returns claimed :
  Forall (fun id => is_Some (getString id)) claimed ->
  exists tr o, organize_text_data getString raised claimed = (tr, Some o).
Proof.
  intros Hall. unfold organize_text_data.
  destruct (organize_loop_returns claimed 0%Z organize_init Hall)
    as (tr & st & ->).
  eexists _, _. reflexivity.
Qed.
End OrganizeFacts.

(** The records of the scenario of three texts, two of them equal, under
    the exact instance. *)
Example get_rarity_three_texts :
  get_rarity (H := Binary64.instance)
    ["the cat sat"; "the dog sat"; "the cat sat"]
    {[ "the cat sat" := [10; 30]%Z; "the dog sat" := [20]%Z ]} 3
  = Some [("the dog sat", 1, "33.33%", [20]%Z);
          ("the cat sat", 2, "66.67%", [10; 30]%Z)].
Proof. vm_compute. reflexivity. Qed.

(** The same three texts through the aggregator: nine words, [the] under
    all three identifiers, the repeated text under the first and third. *)
Example three_texts_organized :
  let o := default (organize_result organize_init)
                   (organize_text_data three_texts solidity_errors [10; 20; 30]%Z).2 in
  o.1.1.1.1.1
  = ["the"; "cat"; "sat"; "the"; "dog"; "sat"; "the"; "cat"; "sat"]
  /\ o.1.1.1.1.2 = [3; 3; 3]
  /\ mapping_get o.1.1.2 "the" = [10; 20; 30]%Z
  /\ mapping_get o.2 "the cat sat" = [10; 30]%Z.
Proof. vm_compute. repeat split. Qed.

(** C7: [get_rarity] returns unless it has to divide by zero, and the
    records it returns are in ascending order of occurrenceCount: of two
    consecutive records the first never has the larger count (and so for
    any two records, in the order they appear). *)
Theorem get_rarity_ascending `{PyFloat} {K : Type} `{Countable K}
    (data : list K) (mapping : gmap K (list Z)) (total : Z) :
  (total <> 0%Z \/ data = [] ->
   exists out, get_rarity data mapping total = Some out)
  /\ forall out,
       get_rarity data mapping total = Some out ->
       (forall i a b, out !! i = Some a -> out !! S i = Some b ->
          occurrenceCount a <= occurrenceCount b)
       /\ (forall i j a b, i < j -> out !! i = Some a -> out !! j = Some b ->
             occurrenceCount a <= occurrenceCount b).
Proof.
  split; [apply get_rarity_returns|].
  intros out Hout.
  assert (Hall : forall i j a b, i < j -> out !! i = Some a ->
            out !! j = Some b -> occurrenceCount a <= occurrenceCount b).
  { intros i j a b Hij Ha Hb.
    pose proof (StronglySorted_lookup _ _ i j a b
                  (get_rarity_stable _ _ _ _ Hout) Hij Ha Hb) as [Hlt|[Heq _]];
      lia. }
  split; [|exact Hall].
  intros i a b. apply Hall. lia.
Qed.

Lemma get_rarity_ascending_witness :
  get_rarity (H := Binary64.instance)
    ["the cat sat"; "the dog sat"; "the cat sat"]
    {[ "the cat sat" := [10; 30]%Z; "the dog sat" := [20]%Z ]} 3
  = Some [("the dog sat", 1, "33.33%", [20]%Z);
          ("the cat sat", 2, "66.67%", [10; 30]%Z)]
  /\ occurrenceCount ("the dog sat", 1, "33.33%", [20]%Z)
     <= occurrenceCount ("the cat sat", 2, "66.67%", [10; 30]%Z).
Proof.
  split; [vm_compute; reflexivity|].
  refine (proj1 (proj2 (get_rarity_ascending (H := Binary64.instance)
                   ["the cat sat"; "the dog sat"; "the cat sat"]
                   {[ "the cat sat" := [10; 30]%Z; "the dog sat" := [20]%Z ]}
                   3)
                   [("the dog sat", 1, "33.33%", [20]%Z);
                    ("the cat sat", 2, "66.67%", [10; 30]%Z)] _)
                0 _ _ eq_refl eq_refl).
  vm_compute. reflexivity.
Defined.

(** C10: records with the same occurrenceCount appear in the order in which
    their keys are first met in the data. *)
Theorem get_rarity_ties_first_met `{PyFloat} {K : Type} `{Countable K}
    (data : list K) (mapping : gmap K (list Z)) (total : Z)
    (out : list (RarityRecord K)) (i j : nat) (a b : RarityRecord K) :
  get_rarity data mapping total = Some out ->
  i < j -> out !! i = Some a -> out !! j = Some b ->
  occurrenceCount a = occurrenceCount b ->
  first_index (record_key a) data < first_index (record_key b) data.
Proof.
  intros Hout Hij Ha Hb Heq.
  pose proof (StronglySorted_lookup _ _ i j a b
                (get_rarity_stable _ _ _ _ Hout) Hij Ha Hb) as [Hlt|[_ Ht]].
  - lia.
  - exact Ht.
Qed.

Lemma get_rarity_ties_first_met_witness :
  first_index "b" ["c"; "b"; "a"; "c"; "a"; "d"; "b"] 
  < first_index "a" ["c"; "b"; "a"; "c"; "a"; "d"; "b"].
Proof.
  refine (get_rarity_ties_first_met (H := Binary64.instance)
            ["c"; "b"; "a"; "c"; "a"; "d"; "b"] ∅ 7
            [("d", 1, "14.29%", []); ("c", 2, "28.57%", []);
             ("b", 2, "28.57%", []); ("a", 2, "28.57%", [])]
            2 3 ("b", 2, "28.57%", []) ("a", 2, "28.57%", []) _ _ _ _ _).
  - vm_compute. reflexivity.
  - lia.
  - reflexivity.
  - reflexivity.
  - reflexivity.
Defined.

Lemma strip_percent_app (s : string) : strip_percent (s +:+ "%") = Some s.
Proof.
  induction s as [|c s IH]; [reflexivity|].
  change (String c s +:+ "%") with (String c (s +:+ "%")).
  cbn [strip_percent]. rewrite IH.
  destruct s; reflexivity.
Qed.

(** ** The three mappings against the three data sequences *)

Lemma length_filter_occurrences {A B : Type} `{EqDecision B} (f : A -> B)
    (n : B) (l : list A) :
  length (filter (fun p => f p = n) l) = occurrences n (f <$> l).
Proof.
  induction l as [|x l IH]; [reflexivity|].
  rewrite filter_cons, fmap_cons. simpl.
  destruct (decide (f x = n)); simpl; rewrite IH; reflexivity.
Qed.

Lemma length_replicated_occurrences (word : string)
    (fetched : list (Z * string)) :
  length (fetched ≫= fun p => replicate (occurrences word (tokens_of p.2)) p.1)
  = occurrences word (concat ((fun p => tokens_of p.2) <$> fetched)).
Proof.
  induction fetched as [|p fetched IH]; [reflexivity|].
  rewrite bind_cons, fmap_cons, length_app, length_replicate. simpl.
  rewrite occurrences_app, IH. reflexivity.
Qed.

Lemma rarity_stage_Some `{PyFloat} (o : organized) (r : rarities) :
  rarity_stage o = Some r ->
  get_rarity o.1.1.1.1.1 o.1.1.2 (Z.of_nat (length o.1.1.1.1.1)) = Some r.1.1
  /\ get_rarity o.1.1.1.1.2 o.1.2 MAX_SUPPLY = Some r.1.2
  /\ get_rarity o.1.1.1.2 o.2 MAX_SUPPLY = Some r.2.
Proof.
  destruct o as [[[[[w c] t] wm] cm] tm]. unfold rarity_stage. simpl.
  destruct (get_rarity w wm _) as [ws|]; [|discriminate].
  destruct (get_rarity c cm _) as [cs|]; [|discriminate].
  destruct (get_rarity t tm _) as [ts|]; [|discriminate].
  intros [= <-]. auto.
Qed.

Lemma rarity_stage_returns `{PyFloat} (o : organized) :
  exists r, rarity_stage o = Some r.
Proof.
  destruct o as [[[[[w c] t] wm] cm] tm]. unfold rarity_stage.
  destruct (get_rarity_returns w wm (Z.of_nat (length w))) as [ws ->].
  { destruct w; [right; reflexivity | left; simpl; lia]. }
  destruct (get_rarity_returns c cm MAX_SUPPLY) as [cs ->];
    [left; discriminate|].
  destruct (get_rarity_returns t tm MAX_SUPPLY) as [ts ->];
    [left; discriminate|].
  eauto.
Qed.

Lemma organize_init_get {K : Type} `{Countable K} (k : K) (l : list Z) :
  mapping_get ∅ k ++ l = l.
Proof. unfold mapping_get. rewrite lookup_empty. reflexivity. Qed.

Ltac init_fields :=
  unfold organize_init;
  cbn [output_words output_total_word_counts output_complete_texts
       output_word_to_token_id output_total_word_count_to_token_id
       output_complete_text_to_token_id app].

(** C9: the three calls of [get_rarity] of the script, each on a data
    sequence of the aggregator together with the mapping built for it,
    return, and every record they return lists as many identifiers as its
    occurrenceCount. *)
Theorem record_ids_length `{PyFloat} (getString : Z -> option string)
    (raised : Z -> exn) (claimed : list Z) (tr : list event) (o : organized) :
  organize_text_data getString raised claimed = (tr, Some o) ->
  exists r,
    rarity_stage o = Some r
    /\ Forall (fun x => length (record_ids x) = occurrenceCount x) r.1.1
    /\ Forall (fun x => length (record_ids x) = occurrenceCount x) r.1.2
    /\ Forall (fun x => length (record_ids x) = occurrenceCount x) r.2.
Proof.
  intros (texts & _ & -> & _)%organize_text_data_Some.
  destruct (rarity_stage_returns
              (organize_result (aggregate_all (zip claimed texts) organize_init)))
    as [r Hr].
  exists r. split; [exact Hr|].
  apply rarity_stage_Some in Hr as (Hw & Hc & Ht).
  unfold organize_result in *. cbn [fst snd] in *.
  rewrite !Forall_forall. repeat split; intros x Hx.
  - destruct (get_rarity_elem_of _ _ _ _ _ Hw Hx) as (_ & -> & _ & ->).
    rewrite aggregate_all_word_to_token_id, aggregate_all_words. init_fields.
    rewrite organize_init_get. apply length_replicated_occurrences.
  - destruct (get_rarity_elem_of _ _ _ _ _ Hc Hx) as (_ & -> & _ & ->).
    rewrite aggregate_all_count_to_token_id, aggregate_all_counts. init_fields.
    rewrite organize_init_get, length_fmap. apply length_filter_occurrences.
  - destruct (get_rarity_elem_of _ _ _ _ _ Ht Hx) as (_ & -> & _ & ->).
    rewrite aggregate_all_text_to_token_id, aggregate_all_texts. init_fields.
    rewrite organize_init_get, length_fmap. apply length_filter_occurrences.
Qed.

Lemma record_ids_length_witness :
  exists tr o r,
    organize_text_data three_texts solidity_errors [10; 20; 30]%Z = (tr, Some o)
    /\ rarity_stage (H := Binary64.instance) o = Some r
    /\ Forall (fun x => length (record_ids x) = occurrenceCount x) r.1.1.
Proof.
  destruct (returned_true (organize_text_data three_texts solidity_errors [10; 20; 30]%Z))
    as (tr & o & Hrun); [vm_compute; reflexivity|].
  destruct (record_ids_length (H := Binary64.instance)
              three_texts solidity_errors [10; 20; 30]%Z tr o Hrun)
    as (r & Hr & Hw & _).
  exists tr, o, r. split; [exact Hrun|]. split; [exact Hr | exact Hw].
Defined.

(** C2: when the claimed identifiers are as many as [MAX_SUPPLY], each of
    the three calls of [get_rarity] of the script returns, and the
    occurrenceCounts of its records add up to the [total] it was given: the
    length of the flattened list of words for the words, [MAX_SUPPLY] for
    the word counts and for the complete texts. *)
Theorem rarity_counts_sum `{PyFloat} (getString : Z -> option string)
    (raised : Z -> exn) (claimed : list Z) (tr : list event) (o : organized) :
  organize_text_data getString raised claimed = (tr, Some o) ->
  Z.of_nat (length claimed) = MAX_SUPPLY ->
  exists ws cs ts,
    rarity_stage o = Some (ws, cs, ts)
    /\ get_rarity o.1.1.1.1.1 o.1.1.2 (Z.of_nat (length o.1.1.1.1.1)) = Some ws
    /\ Z.of_nat (sum_list_with occurrenceCount ws)
       = Z.of_nat (length o.1.1.1.1.1)
    /\ get_rarity o.1.1.1.1.2 o.1.2 MAX_SUPPLY = Some cs
    /\ Z.of_nat (sum_list_with occurrenceCount cs) = MAX_SUPPLY
    /\ get_rarity o.1.1.1.2 o.2 MAX_SUPPLY = Some ts
    /\ Z.of_nat (sum_list_with occurrenceCount ts) = MAX_SUPPLY.
Proof.
  intros (texts & Hall & -> & _)%organize_text_data_Some Hlen.
  destruct (rarity_stage_returns
              (organize_result (aggregate_all (zip claimed texts) organize_init)))
    as [[[ws cs] ts] Hr].
  exists ws, cs, ts. split; [assumption|].
  apply rarity_stage_Some in Hr as (Hw & Hc & Ht).
  unfold organize_result in *. cbn [fst snd] in *.
  assert (Hzip : length (zip claimed texts) = length claimed).
  { rewrite length_zip_with. apply Forall2_length in Hall. lia. }
  repeat split; try assumption.
  - f_equal. eapply get_rarity_sum; eassumption.
  - rewrite (get_rarity_sum _ _ _ _ Hc), aggregate_all_counts. init_fields.
    rewrite length_fmap, Hzip. exact Hlen.
  - rewrite (get_rarity_sum _ _ _ _ Ht), aggregate_all_texts. init_fields.
    rewrite length_fmap, Hzip. exact Hlen.
Qed.

Lemma rarity_counts_sum_witness :
  exists tr o ws cs ts,
    organize_text_data same_text solidity_errors full_collection = (tr, Some o)
    /\ rarity_stage (H := Binary64.instance) o = Some (ws, cs, ts)
    /\ Z.of_nat (sum_list_with occurrenceCount cs) = 5000%Z.
Proof.
  destruct (organize_text_data_returns same_text solidity_errors full_collection)
    as (tr & o & Hrun).
  { apply Forall_forall. intros id _. eexists. reflexivity. }
  destruct (rarity_counts_sum (H := Binary64.instance)
              same_text solidity_errors full_collection tr o Hrun)
    as (ws & cs & ts & Hr & _ & _ & _ & Hc & _).
  { vm_compute. reflexivity. }
  exists tr, o, ws, cs, ts. split; [exact Hrun|]. split; [exact Hr | exact Hc].
Defined.

(** ** The word mapping *)

Lemma occurrences_replicate {K : Type} `{EqDecision K} (k x : K) (n : nat) :
  occurrences k (replicate n x) = if decide (x = k) then n else 0.
Proof.
  induction n as [|n IH]; simpl.
  - destruct (decide (x = k)); reflexivity.
  - rewrite IH. destruct (decide (x = k)); reflexivity.
Qed.

Lemma bind_fetched {B : Type} (getString : Z -> option string)
    (f : Z -> string -> list B) (claimed : list Z) (texts : list string) :
  Forall2 (fun id text => getString id = Some text) claimed texts ->
  zip claimed texts ≫= (fun p => f p.1 p.2)
  = claimed ≫= (fun id => from_option (f id) [] (getString id)).
Proof.
  induction 1 as [|id text claimed texts Hg _ IH]; [reflexivity|].
  cbn [zip zip_with]. rewrite !bind_cons, IH, Hg. reflexivity.
Qed.

(** C5: the list of a word in the word mapping holds, for each claimed
    identifier in turn, as many copies of it as the word has occurrences
    among the tokens of its text; so an identifier whose text has the word
    [k] times is there [k] times (for each time it was claimed), not
    once. *)
Theorem word_to_token_id_per_occurrence (getString : Z -> option string)
    (raised : Z -> exn) (claimed : list Z) (tr : list event) (o : organized) (word : string) :
  organize_text_data getString raised claimed = (tr, Some o) ->
  mapping_get o.1.1.2 word
  = claimed ≫= (fun id =>
      from_option (fun text => replicate (occurrences word (tokens_of text)) id)
                  [] (getString id))
  /\ forall id text, getString id = Some text ->
       occurrences id (mapping_get o.1.1.2 word)
       = occurrences id claimed * occurrences word (tokens_of text).
Proof.
  intros (texts & Hall & -> & _)%organize_text_data_Some.
  unfold organize_result. cbn [fst snd].
  rewrite aggregate_all_word_to_token_id. init_fields.
  rewrite organize_init_get.
  rewrite (bind_fetched getString
             (fun id text => replicate (occurrences word (tokens_of text)) id)
             claimed texts Hall).
  split; [reflexivity|].
  intros id text Hg. clear Hall texts.
  induction claimed as [|id' claimed IH]; [reflexivity|].
  rewrite bind_cons, occurrences_app, IH. simpl.
  destruct (decide (id' = id)) as [->|Hne].
  - rewrite Hg. simpl. rewrite occurrences_replicate.
    destruct (decide (id = id)); [lia | congruence].
  - destruct (getString id') as [text'|]; simpl; [|lia].
    rewrite occurrences_replicate.
    destruct (decide (id' = id)); [congruence | lia].
Qed.

Lemma word_to_token_id_per_occurrence_witness :
  exists tr o,
    organize_text_data
      (fun id => if (id =? 7)%Z then Some "Dada dada da." else Some "Da.")
      solidity_errors [7; 8]%Z = (tr, Some o)
    /\ mapping_get o.1.1.2 "dada" = [7; 7]%Z
    /\ mapping_get o.1.1.2 "da" = [7; 8]%Z.
Proof.
  destruct (returned_true
              (organize_text_data
                 (fun id => if (id =? 7)%Z then Some "Dada dada da."
                            else Some "Da.")
                 solidity_errors [7; 8]%Z)) as (tr & o & Hrun);
    [vm_compute; reflexivity|].
  exists tr, o. split; [exact Hrun|].
  split.
  - etransitivity;
      [exact (proj1 (word_to_token_id_per_occurrence _ _ _ _ _ "dada" Hrun))|].
    vm_compute. reflexivity.
  - etransitivity;
      [exact (proj1 (word_to_token_id_per_occurrence _ _ _ _ _ "da" Hrun))|].
    vm_compute. reflexivity.
Defined.

(** ** Normalisation *)

Lemma remove_last_snoc (s : string) (c : ascii) :
  remove_last (s +:+ String c EmptyString) = s.
Proof.
  induction s as [|c' s IH]; [reflexivity|].
  change (String c' s +:+ String c "") with (String c' (s +:+ String c "")).
  cbn [remove_last]. rewrite IH. destruct s; reflexivity.
Qed.

Lemma substring_remove_last (s : string) : forall n,
  String.length s = S n -> substring 0 n s = remove_last s.
Proof.
  induction s as [|c s IH]; intros n Hn; [discriminate|].
  injection Hn as Hn. destruct s as [|c' s].
  - subst n. reflexivity.
  - destruct n as [|n]; [discriminate|].
    change (String c (substring 0 n (String c' s))
            = String c (remove_last (String c' s))).
    f_equal. apply IH. exact Hn.
Qed.

Lemma slice_to_last (s : string) :
  slice_to s (Z.of_nat (String.length s) - 1) = remove_last s.
Proof.
  unfold slice_to. destruct s as [|c s]; [reflexivity|].
  destruct (Z.ltb_spec (Z.of_nat (String.length (String c s)) - 1) 0) as [Hlt|_].
  - cbn [String.length] in Hlt. lia.
  - apply substring_remove_last. cbn [String.length]. lia.
Qed.

Lemma normalize_list_removelast {A : Type} (str_lower : list A -> list A)
    (text : list A) :
  normalize_list str_lower text = removelast (str_lower text).
Proof.
  unfold normalize_list, slice_to_list.
  generalize (str_lower text). intros l.
  destruct (Z.ltb_spec (Z.of_nat (length l) - 1) 0) as [Hlt|Hge].
  - destruct l as [|x l]; [reflexivity | cbn [length] in Hlt; lia].
  - replace (Z.to_nat (Z.min (Z.of_nat (length l) - 1) (Z.of_nat (length l))))
      with (length l - 1) by lia.
    clear Hge. induction l as [|x l IH]; [reflexivity|].
    destruct l as [|y l]; [reflexivity|].
    cbn [length Nat.sub take removelast] in *.
    rewrite Nat.sub_0_r in *. f_equal. exact IH.
Qed.

Lemma chars_lower (s : string) : chars (lower s) = map lower_char (chars s).
Proof.
  induction s as [|c s IH]; [reflexivity|].
  cbn [lower chars list_ascii_of_string map]. f_equal. exact IH.
Qed.

Lemma chars_remove_last (s : string) :
  chars (remove_last s) = removelast (chars s).
Proof.
  unfold chars. induction s as [|c s IH]; [reflexivity|].
  destruct s as [|c' s]; [reflexivity|].
  change (remove_last (String c (String c' s)))
    with (String c (remove_last (String c' s))).
  change (list_ascii_of_string (String c (remove_last (String c' s))))
    with (c :: list_ascii_of_string (remove_last (String c' s))).
  rewrite IH. reflexivity.
Qed.

(** C6: the normalisation is lower-casing followed by the removal of the
    final character of the lower-cased string and of nothing else: if the
    lower-cased string is [rest] followed by one character, the normalised
    text is [rest], and an empty one stays empty.  This holds on sequences
    over any alphabet and for any lower-casing function, of which the
    strings of this development and their [lower] are an instance.  On the
    ASCII letters [lower] is the lower-casing of Python (the capitals go to
    their small letters, nothing else moves), as in the fetched string
    ["The Cat Sat."], which becomes ["the cat sat"].  It is the normalised
    text that is stored, used as the key of the text mapping, and
    tokenized. *)
Theorem normalize_lower_then_drop_last (text : string) :
  normalize text = remove_last (lower text)
  /\ (forall rest c,
        lower text = rest +:+ String c EmptyString -> normalize text = rest)
  /\ (lower text = EmptyString -> normalize text = EmptyString)
  /\ chars (normalize text) = normalize_list (map lower_char) (chars text)
  /\ (forall (A : Type) (str_lower : list A -> list A) (t : list A),
        normalize_list str_lower t = removelast (str_lower t))
  /\ lower "ABCDEFGHIJKLMNOPQRSTUVWXYZ" = "abcdefghijklmnopqrstuvwxyz"
  /\ (forall c, (code c < 128)%N ->
        lower_char c
        = if ((65 <=? code c) && (code c <=? 90))%N
          then ascii_of_N (code c + 32) else c)
  /\ normalize "The Cat Sat." = "the cat sat"
  /\ forall token_id st,
       output_complete_texts (aggregate token_id text st)
       = output_complete_texts st ++ [remove_last (lower text)]
       /\ output_words (aggregate token_id text st)
          = output_words st ++ [tokenize (remove_last (lower text))]
       /\ output_complete_text_to_token_id (aggregate token_id text st)
          = mapping_append (output_complete_text_to_token_id st)
                           (remove_last (lower text)) token_id.
Proof.
  assert (Hn : forall t, normalize t = remove_last (lower t)).
  { intros t. unfold normalize. apply slice_to_last. }
  split; [apply Hn|]. split.
  { intros rest c Hl. rewrite Hn, Hl. apply remove_last_snoc. }
  split; [intros Hl; rewrite Hn, Hl; reflexivity|].
  split.
  { rewrite Hn, chars_remove_last, chars_lower.
    symmetry. apply normalize_list_removelast. }
  split; [intros A str_lower t; apply normalize_list_removelast|].
  split; [reflexivity|].
  split.
  { intros c Hc. destruct c as [[] [] [] [] [] [] [] []];
      try reflexivity; vm_compute in Hc; discriminate Hc. }
  split; [reflexivity|].
  intros token_id st. unfold aggregate.
  cbn [output_complete_texts output_words output_complete_text_to_token_id].
  rewrite Hn. auto.
Qed.

Lemma normalize_lower_then_drop_last_witness :
  lower "The Cat Sat." = "the cat sat" +:+ "."
  /\ normalize "The Cat Sat." = "the cat sat".
Proof.
  split; [reflexivity|].
  exact (proj1 (proj2 (normalize_lower_then_drop_last "The Cat Sat."))
               "the cat sat" "."%char eq_refl).
Defined.

(** ** The tokenizer *)

(** C8: the text ["AB-12.3%!!x"], lower-cased and tokenized, gives the two
    tokens ["ab-12.3%"] and ["x"]. *)
Theorem tokenize_scenario :
  tokenize (lower "AB-12.3%!!x") = ["ab-12.3%"; "x"].
Proof. reflexivity. Qed.

Lemma tokenize_no_empty_token (text token : string) :
  token ∈ tokenize text -> token <> EmptyString.
Proof.
  unfold tokenize. intros Hin%list_elem_of_In%filter_In Hempty.
  destruct Hin as [_ Hne]. subst token. discriminate.
Qed.

(** The class of [REGEX] and the set of the comment on line 38 differ on
    the seven characters from [&] (38) to [,] (44), and only there. *)
Lemma REGEX_retains (c : ascii) :
  class_matches REGEX c
  = negb (spec_retained c || (38 <=? code c)%N && (code c <=? 44)%N).
Proof. destruct c as [[] [] [] [] [] [] [] []]; reflexivity. Qed.

Lemma sub_runs_ext (bad bad' : ascii -> bool) (repl : string) (s : string) :
  Forall (fun c => bad c = bad' c) (list_ascii_of_string s) ->
  forall in_run, sub_runs bad repl in_run s = sub_runs bad' repl in_run s.
Proof.
  induction s as [|c s IH]; intros Hall in_run; [reflexivity|].
  cbn [list_ascii_of_string] in Hall. apply Forall_cons in Hall as [Hc Hall].
  cbn [sub_runs]. rewrite Hc, !IH by assumption. reflexivity.
Qed.

(** Away from those seven characters the tokenizer is the one of the
    specification. *)
Lemma tokenize_spec_tokenize (text : string) :
  Forall (fun c => negb ((38 <=? code c)%N && (code c <=? 44)%N) = true)
         (list_ascii_of_string text) ->
  tokenize text = spec_tokenize text.
Proof.
  intros Hall. unfold tokenize, spec_tokenize, re_sub.
  rewrite (sub_runs_ext (class_matches REGEX)
                        (fun c => negb (spec_retained c))); [reflexivity|].
  eapply Forall_impl; [exact Hall|]. intros c Hc. cbn beta in Hc.
  rewrite REGEX_retains. apply negb_true_iff in Hc. rewrite Hc, orb_false_r.
  reflexivity.
Qed.

(** C1 fails on the code: a text with [&] or ['] between letters is kept as
    one token by the tokenizer, where the reference definition cuts it; the
    token then holds a character that is neither alphanumeric nor one of
    [%], [-], [.]. *)
Theorem tokenize_retains_ampersand :
  tokenize "a&b" = ["a&b"]
  /\ spec_tokenize "a&b" = ["a"; "b"]
  /\ tokens_of "Don't stop." = ["don't"; "stop"]
  /\ spec_tokenize (normalize "Don't stop.") = ["don"; "t"; "stop"]
  /\ spec_retained "&" = false
  /\ spec_retained "'" = false.
Proof. repeat split. Qed.

(** ** The enumerator *)

Lemma claimed_loop_requests (opensea : Z -> option (list Z)) claimed offset :
  forall tr r,
  claimed_loop opensea claimed offset = (tr, r) ->
  exists n,
    requests tr
    = (fun i => (offset + Z.of_nat i * LIMIT, LIMIT)%Z) <$> seq 0 n
    /\ (forall i, i < n -> (offset + Z.of_nat i * LIMIT <= MAX_SUPPLY - LIMIT)%Z)
    /\ match r with
       | Some all =>
           ~ (offset + Z.of_nat n * LIMIT <= MAX_SUPPLY - LIMIT)%Z
           /\ exists pages,
                Forall2 (fun i page =>
                           opensea (offset + Z.of_nat i * LIMIT)%Z = Some page)
                        (seq 0 n) pages
                /\ all = claimed ++ concat pages
       | None =>
           exists m, n = S m /\ opensea (offset + Z.of_nat m * LIMIT)%Z = None
       end.
Proof.
  funelim (claimed_loop opensea claimed offset); intros tr r Hrun.
  - clear Heq Heqcall. unfold send_request in Hrun. rewrite bind_emit in Hrun.
    destruct (opensea offset) as [page|] eqn:Hpage.
    + specialize (H page tt tt).
      destruct (claimed_loop opensea (claimed ++ page) (offset + LIMIT))
        as [tr' r'] eqn:Hrec.
      specialize (H tr' r' eq_refl) as (n & Hreq & Hle & Hr).
      unfold ret at 1 2 in Hrun. cbn [fst snd] in Hrun.
      rewrite bind_pair in Hrun.
      assert (Htr : requests tr = (offset, LIMIT) :: requests tr' /\ r = r').
      { destruct (decide _);
          rewrite ?bind_emit, ?bind_ret, ?Hrec in Hrun; cbn [fst snd] in Hrun;
          injection Hrun as <- <-; split; reflexivity. }
      destruct Htr as [Htr ->]. exists (S n). split; [|split].
      * rewrite Htr, Hreq. cbn [seq fmap list_fmap]. f_equal; [f_equal; lia|].
        rewrite <- fmap_S_seq, <- list_fmap_compose.
        apply list_fmap_ext. intros _ i _. cbn. f_equal. lia.
      * intros [|i] Hi; [lia|]. specialize (Hle i ltac:(lia)). lia.
      * destruct r' as [all|].
        -- destruct Hr as (Hstop & pages & Hpages & ->). split; [lia|].
           exists (page :: pages). split.
           ++ cbn [seq]. constructor.
              ** rewrite <- Hpage. f_equal. lia.
              ** rewrite <- fmap_S_seq. apply Forall2_fmap_l.
                 eapply Forall2_impl; [exact Hpages|].
                 intros i p Hp. cbn. rewrite <- Hp. f_equal. lia.
           ++ cbn [concat]. rewrite app_assoc. reflexivity.
        -- destruct Hr as (m & -> & Hnone). exists (S m).
           split; [reflexivity|]. rewrite <- Hnone. f_equal. lia.
    + rewrite bind_emit in Hrun. cbn [exit fst snd] in Hrun.
      unfold bind in Hrun. injection Hrun as <- <-.
      exists 1. split; [|split].
      * cbn. do 2 f_equal. lia.
      * intros i Hi. assert (i = 0) as -> by lia. lia.
      * exists 0. split; [reflexivity|]. rewrite <- Hpage. f_equal. lia.
  - injection Hrun as <- <-. exists 0. split; [reflexivity|].
    split; [intros; lia|]. split; [lia|]. exists []. split; [constructor|].
    rewrite app_nil_r. reflexivity.
Qed.

(** C4: the enumerator asks for pages of [LIMIT] = 50 identifiers at the
    offsets 0, [LIMIT], 2 [LIMIT], ..., one request for every such offset
    that does not exceed [MAX_SUPPLY - LIMIT] and none beyond (unless a
    request fails, which ends the process there); and when it has returned
    a list whose length is not [MAX_SUPPLY] = 5000, the script prints its
    diagnostic and ends: nothing follows the diagnostic, and the run has no
    result. *)
Theorem enumerator_pages_and_sanity_check `{PyFloat}
    (opensea : Z -> option (list Z)) (getString : Z -> option string)
    (report : list string -> list nat -> run unit)
    (raised : Z -> exn) (disk : string -> list string -> write_outcome)
    (tr : list event) (r : option (list Z)) :
  get_claimed_token_ids opensea = (tr, r) ->
  LIMIT = 50%Z /\ MAX_SUPPLY = 5000%Z
  /\ (exists n,
        requests tr = (fun i => (Z.of_nat i * LIMIT, LIMIT)%Z) <$> seq 0 n
        /\ (forall i, i < n -> (Z.of_nat i * LIMIT <= MAX_SUPPLY - LIMIT)%Z)
        /\ (is_Some r -> ~ (Z.of_nat n * LIMIT <= MAX_SUPPLY - LIMIT)%Z)
        /\ (r = None ->
            exists m, n = S m /\ opensea (Z.of_nat m * LIMIT)%Z = None))
  /\ forall claimed,
       r = Some claimed ->
       Z.of_nat (length claimed) <> MAX_SUPPLY ->
       main true opensea getString report raised disk
       = ([EAbi; EClock "STARTED COLLECTING CLAIMED TOKEN IDS:"] ++ tr
          ++ [EClock "FINISHED COLLECTING CLAIMED TOKEN IDS:";
              EClock "DURATION:";
              EPrint "There should be 5000 tokens. Something went wrong."],
          None).
Proof.
  intros Hrun. split; [reflexivity|]. split; [reflexivity|]. split.
  - destruct (claimed_loop_requests opensea [] 0 tr r Hrun)
      as (n & Hreq & Hle & Hr).
    exists n. split; [|split; [|split]].
    + rewrite Hreq. apply list_fmap_ext. intros _ i _. f_equal.
    + intros i Hi. specialize (Hle i Hi). lia.
    + intros [all ->]. destruct Hr as [Hstop _]. lia.
    + intros ->. exact Hr.
  - intros claimed -> Hlen. unfold main, connect_to_contract.
    unfold print_start_time, print_end_time.
    rewrite Hrun. cbn [bind emit ret exit app].
    destruct (decide (Z.of_nat (length claimed) <> MAX_SUPPLY)) as [_|Hn];
      [|contradiction].
    cbn [bind emit ret exit app]. reflexivity.
Qed.

Lemma enumerator_pages_and_sanity_check_witness :
  (get_claimed_token_ids (fun _ => Some [7%Z])).2 = Some (replicate 100 7%Z)
  /\ (main (H := Binary64.instance) true (fun _ => Some [7%Z]) same_text
           (fun _ _ => ret tt) solidity_errors sound_disk).2 = None
  /\ calls (main (H := Binary64.instance) true (fun _ => Some [7%Z])
              same_text (fun _ _ => ret tt) solidity_errors sound_disk).1
     = [].
Proof.
  destruct (enumerator_pages_and_sanity_check (H := Binary64.instance)
              (fun _ => Some [7%Z]) same_text (fun _ _ => ret tt)
              solidity_errors sound_disk
              (get_claimed_token_ids (fun _ => Some [7%Z])).1
              (get_claimed_token_ids (fun _ => Some [7%Z])).2)
    as (_ & _ & _ & Hmain).
  { vm_compute. reflexivity. }
  specialize (Hmain (replicate 100 7%Z)).
  rewrite Hmain.
  - split; [vm_compute; reflexivity|]. split; [reflexivity|].
    vm_compute. reflexivity.
  - vm_compute. reflexivity.
  - vm_compute. discriminate.
Defined.

(** * Further properties *)

(** ** Strings *)

Lemma append_nil_r (s : string) : s +:+ EmptyString = s.
Proof.
  induction s as [|c s IH]; [reflexivity|].
  change (String c s +:+ "") with (String c (s +:+ "")). f_equal. exact IH.
Qed.

Lemma append_assoc (s t u : string) : (s +:+ t) +:+ u = s +:+ t +:+ u.
Proof.
  induction s as [|c s IH]; [reflexivity|].
  change ((String c s +:+ t) +:+ u) with (String c ((s +:+ t) +:+ u)).
  rewrite IH. reflexivity.
Qed.

Lemma length_append (s t : string) :
  String.length (s +:+ t) = String.length s + String.length t.
Proof.
  induction s as [|c s IH]; [reflexivity|].
  change (String c s +:+ t) with (String c (s +:+ t)).
  cbn [String.length]. rewrite IH. reflexivity.
Qed.

Lemma split_cons_inv sep s : exists w ws, split sep s = w :: ws.
Proof.
  induction s as [|c s (w & ws & IH)]; simpl; [eauto|].
  destruct (Ascii.eqb c sep); [eauto|]. rewrite IH. eauto.
Qed.

Lemma split_chars sep s :
  split sep s ≫= chars
  = List.filter (fun c => negb (Ascii.eqb c sep)) (chars s).
Proof.
  induction s as [|c s IH]; [reflexivity|].
  cbn [split chars list_ascii_of_string List.filter].
  destruct (Ascii.eqb c sep) eqn:Hc; cbn [negb].
  - rewrite bind_cons. exact IH.
  - destruct (split_cons_inv sep s) as (w & ws & Hs). rewrite Hs in *.
    rewrite bind_cons in *. cbn [chars list_ascii_of_string app].
    f_equal. exact IH.
Qed.

Lemma split_elem_chars sep s w c :
  w ∈ split sep s -> c ∈ chars w -> c ∈ chars s /\ c <> sep.
Proof.
  intros Hw Hc.
  assert (Hin : c ∈ split sep s ≫= chars).
  { apply list_elem_of_bind. eauto. }
  rewrite split_chars in Hin.
  apply list_elem_of_In, filter_In in Hin as [Hin Hne].
  split; [apply list_elem_of_In; exact Hin|].
  intros ->. rewrite Ascii.eqb_refl in Hne. discriminate.
Qed.

Lemma split_no_sep_id sep w : sep ∉ chars w -> split sep w = [w].
Proof.
  induction w as [|c w IH]; intros Hn; [reflexivity|].
  cbn [chars list_ascii_of_string] in Hn.
  apply not_elem_of_cons in Hn as [Hne Hn].
  cbn [split]. destruct (Ascii.eqb_spec c sep); [congruence|].
  rewrite IH by exact Hn. reflexivity.
Qed.

Lemma split_app_sep sep w rest :
  sep ∉ chars w -> split sep (w +:+ String sep rest) = w :: split sep rest.
Proof.
  induction w as [|c w IH]; intros Hn.
  - change ("" +:+ String sep rest) with (String sep rest).
    cbn [split]. rewrite Ascii.eqb_refl. reflexivity.
  - cbn [chars list_ascii_of_string] in Hn.
    apply not_elem_of_cons in Hn as [Hne Hn].
    change (String c w +:+ String sep rest)
      with (String c (w +:+ String sep rest)).
    cbn [split]. destruct (Ascii.eqb_spec c sep); [congruence|].
    rewrite IH by exact Hn. reflexivity.
Qed.

(** Splitting undoes joining, for fragments without the separator. *)
Lemma split_join sep ws :
  ws <> [] -> Forall (fun w => sep ∉ chars w) ws ->
  split sep (join (String sep EmptyString) ws) = ws.
Proof.
  intros Hne Hall. induction Hall as [|w ws Hw Hws IH]; [contradiction|].
  destruct ws as [|w' ws].
  - cbn [join]. apply split_no_sep_id. exact Hw.
  - change (join (String sep "") (w :: w' :: ws))
      with (w +:+ String sep (join (String sep "") (w' :: ws))).
    rewrite split_app_sep by exact Hw. f_equal. apply IH. discriminate.
Qed.

(** ** More on the tokenizer *)

Lemma filter_nonempty_chars (l : list string) :
  List.filter nonempty l ≫= chars = l ≫= chars.
Proof.
  induction l as [|w l IH]; [reflexivity|].
  cbn [List.filter]. destruct w as [|c w]; cbn [nonempty].
  - rewrite bind_cons. exact IH.
  - rewrite !bind_cons, IH. reflexivity.
Qed.

Lemma sub_runs_chars bad b s :
  bad " "%char = true ->
  List.filter (fun c => negb (bad c)) (chars (sub_runs bad " " b s))
  = List.filter (fun c => negb (bad c)) (chars s)
  /\ Forall (fun c => bad c = false \/ c = " "%char)
            (chars (sub_runs bad " " b s)).
Proof.
  intros Hsp. revert b.
  induction s as [|c s IH]; intros b; [split; [reflexivity | constructor]|].
  cbn [sub_runs chars list_ascii_of_string List.filter].
  destruct (bad c) eqn:Hc; cbn [negb].
  - destruct b.
    + apply IH.
    + change (" " +:+ sub_runs bad " " true s)
        with (String " " (sub_runs bad " " true s)).
      cbn [chars list_ascii_of_string List.filter]. rewrite Hsp. cbn [negb].
      destruct (IH true) as [IH1 IH2]. split; [exact IH1|].
      constructor; [right; reflexivity | exact IH2].
  - cbn [chars list_ascii_of_string List.filter]. rewrite Hc. cbn [negb].
    destruct (IH false) as [IH1 IH2]. split; [f_equal; exact IH1|].
    constructor; [left; exact Hc | exact IH2].
Qed.

Lemma REGEX_space : class_matches REGEX " " = true.
Proof. reflexivity. Qed.

Lemma retained_ranges (c : ascii) :
  retained c = alphanumeric c || (37 <=? code c)%N && (code c <=? 46)%N.
Proof. destruct c as [[] [] [] [] [] [] [] []]; reflexivity. Qed.

Lemma tokenize_chars_filter (text : string) :
  tokenize text ≫= chars = List.filter retained (chars text).
Proof.
  unfold tokenize, re_sub. rewrite filter_nonempty_chars, split_chars.
  destruct (sub_runs_chars (class_matches REGEX) false text REGEX_space)
    as [H1 H2].
  unfold retained. rewrite <- H1. clear H1. revert H2.
  generalize (chars (sub_runs (class_matches REGEX) " " false text)).
  intros l H2. induction H2 as [|c l Hc _ IH]; [reflexivity|].
  cbn [List.filter]. rewrite IH.
  destruct Hc as [Hc| ->].
  - rewrite Hc. destruct (Ascii.eqb_spec c " ") as [->|]; [|reflexivity].
    rewrite REGEX_space in Hc. discriminate Hc.
  - rewrite REGEX_space. reflexivity.
Qed.

Lemma tokenize_tokens_good (text token : string) :
  token ∈ tokenize text -> good (class_matches REGEX) token.
Proof.
  intros Hin. split; [eapply tokenize_no_empty_token; exact Hin|].
  unfold tokenize, re_sub in Hin.
  apply list_elem_of_In, filter_In in Hin as [Hin _].
  apply list_elem_of_In in Hin.
  destruct (sub_runs_chars (class_matches REGEX) false text REGEX_space)
    as [_ Hall].
  apply Forall_forall. intros c Hc.
  destruct (split_elem_chars _ _ _ _ Hin Hc) as [Hcs Hne].
  rewrite Forall_forall in Hall.
  destruct (Hall c Hcs) as [Hb|Hsp]; [exact Hb | contradiction].
Qed.

Section Rejoin.
Variable bad : ascii -> bool.
Hypothesis bad_space : bad " "%char = true.

Lemma sub_runs_good_prefix w rest b :
  Forall (fun c => bad c = false) (chars w) ->
  sub_runs bad " " b (w +:+ rest)
  = w +:+ sub_runs bad " "
            (match w with EmptyString => b | _ => false end) rest.
Proof.
  revert b. induction w as [|c w IH]; intros b Hall; [reflexivity|].
  cbn [chars list_ascii_of_string] in Hall.
  apply Forall_cons in Hall as [Hc Hall].
  change (String c w +:+ rest) with (String c (w +:+ rest)).
  cbn [sub_runs]. rewrite Hc, IH by exact Hall.
  destruct w; reflexivity.
Qed.

Lemma sub_runs_true_good s c :
  bad c = false ->
  sub_runs bad " " true (String c s) = sub_runs bad " " false (String c s).
Proof. intros Hc. cbn [sub_runs]. rewrite Hc. reflexivity. Qed.

Lemma join_good_head w ws :
  good bad w -> exists c s, bad c = false /\ join " " (w :: ws) = String c s.
Proof.
  intros [Hne Hall]. destruct w as [|c w]; [contradiction|].
  cbn [chars list_ascii_of_string] in Hall.
  apply Forall_cons in Hall as [Hc _].
  exists c. destruct ws; cbn [join]; eauto.
Qed.

(** Words of kept characters joined by single spaces hold no run to
    replace. *)
Lemma sub_runs_join ws :
  Forall (good bad) ws -> sub_runs bad " " false (join " " ws) = join " " ws.
Proof.
  induction 1 as [|w ws Hw Hws IH]; [reflexivity|].
  destruct ws as [|w' ws].
  - cbn [join]. rewrite <- (append_nil_r w) at 1.
    rewrite sub_runs_good_prefix by apply Hw. cbn [sub_runs].
    apply append_nil_r.
  - change (join " " (w :: w' :: ws))
      with (w +:+ " " +:+ join " " (w' :: ws)).
    rewrite sub_runs_good_prefix by apply Hw.
    destruct Hw as [Hne _]. destruct w as [|c w]; [contradiction|].
    f_equal.
    change (" " +:+ join " " (w' :: ws))
      with (String " " (join " " (w' :: ws))).
    cbn [sub_runs]. rewrite bad_space.
    change (" " +:+ sub_runs bad " " true (join " " (w' :: ws)))
      with (String " " (sub_runs bad " " true (join " " (w' :: ws)))).
    f_equal.
    apply Forall_cons in Hws as [Hw' Hws].
    destruct (join_good_head w' ws Hw') as (c' & s' & Hc' & Hj).
    rewrite Hj, sub_runs_true_good, <- Hj by exact Hc'. exact IH.
Qed.
End Rejoin.

Lemma tokenize_join_good (ws : list string) :
  Forall (good (class_matches REGEX)) ws -> tokenize (join " " ws) = ws.
Proof.
  intros Hws. unfold tokenize, re_sub.
  rewrite (sub_runs_join _ REGEX_space ws Hws).
  destruct ws as [|w ws]; [reflexivity|].
  rewrite split_join; [|discriminate|].
  - clear -Hws. induction Hws as [|w' ws' [Hne _] _ IH]; [reflexivity|].
    cbn [List.filter]. destruct w'; [contradiction|]. cbn [nonempty].
    f_equal. exact IH.
  - eapply Forall_impl; [exact Hws|]. intros w' [_ Hall] Hsp.
    rewrite Forall_forall in Hall. specialize (Hall _ Hsp).
    rewrite REGEX_space in Hall. discriminate.
Qed.

(** X1: every token is non-empty and made only of characters that are
    alphanumeric or lie in the range from [%] (37) to [.] (46); it holds
    no space, and tokenizing it again gives the token itself. *)
Theorem tokenize_token_chars (text token : string) :
  token ∈ tokenize text ->
  token <> EmptyString
  /\ Forall (fun c => alphanumeric c = true
                      \/ (37 <= code c)%N /\ (code c <= 46)%N) (chars token)
  /\ (" "%char ∉ chars token)
  /\ tokenize token = [token].
Proof.
  intros Hin. pose proof (tokenize_tokens_good _ _ Hin) as Hgood.
  pose proof Hgood as [Hne Hall].
  split; [exact Hne|]. split; [|split].
  - eapply Forall_impl; [exact Hall|]. intros c Hc. cbn beta in Hc.
    assert (Hr : retained c = true) by (unfold retained; rewrite Hc; reflexivity).
    rewrite retained_ranges in Hr.
    apply orb_true_iff in Hr as [Hr|Hr]; [left; exact Hr|right].
    apply andb_true_iff in Hr as [H1 H2].
    split; [apply N.leb_le, H1 | apply N.leb_le, H2].
  - intros Hsp. rewrite Forall_forall in Hall. specialize (Hall _ Hsp).
    rewrite REGEX_space in Hall. discriminate.
  - apply (tokenize_join_good [token]). constructor; [exact Hgood | constructor].
Qed.

Lemma tokenize_token_chars_witness :
  "ab-12.3%" <> EmptyString /\ tokenize "ab-12.3%" = ["ab-12.3%"].
Proof.
  destruct (tokenize_token_chars "ab-12.3%!!x" "ab-12.3%")
    as (Hne & _ & _ & Hfix).
  - assert (tokenize "ab-12.3%!!x" = ["ab-12.3%"; "x"]) as -> by reflexivity.
    left.
  - split; [exact Hne | exact Hfix].
Defined.

(** X2: the tokens, read one after the other, are the characters of the
    text that the class of [REGEX] keeps, in their order: tokenizing loses
    no kept character, adds none and moves none; and there is no token
    exactly when the text has no kept character. *)
Theorem tokenize_keeps_retained_characters (text : string) :
  tokenize text ≫= chars = List.filter retained (chars text)
  /\ (tokenize text = []
      <-> Forall (fun c => retained c = false) (chars text)).
Proof.
  split; [apply tokenize_chars_filter|].
  pose proof (tokenize_chars_filter text) as Heq. split.
  - intros Hnil. rewrite Hnil in Heq. cbn in Heq.
    apply Forall_forall. intros c Hc%list_elem_of_In.
    destruct (retained c) eqn:Hr; [|reflexivity].
    assert (Hin : In c (List.filter retained (chars text)))
      by (apply filter_In; auto).
    rewrite <- Heq in Hin. destruct Hin.
  - intros Hall.
    assert (Hf : List.filter retained (chars text) = []).
    { clear Heq. induction Hall as [|c l Hc _ IH]; [reflexivity|].
      cbn [List.filter]. rewrite Hc. exact IH. }
    rewrite Hf in Heq.
    destruct (tokenize text) as [|token ws] eqn:Ht; [reflexivity|].
    assert (Hin : token ∈ tokenize text) by (rewrite Ht; left).
    apply tokenize_tokens_good in Hin as [Hne _].
    rewrite bind_cons in Heq. destruct token; [contradiction|]. discriminate.
Qed.

(** X3: the tokens joined by single spaces tokenize to the same tokens:
    running the tokenizer on its own output changes nothing. *)
Theorem tokenize_rejoin (text : string) :
  tokenize (join " " (tokenize text)) = tokenize text.
Proof.
  apply tokenize_join_good. apply Forall_forall.
  intros token. apply tokenize_tokens_good.
Qed.

(** ** The console reports *)

Lemma pad_bar_spec (s : string) :
  pad_bar s = s +:+ string_repeat "_" (6 - String.length s).
Proof.
  funelim (pad_bar s).
  - rewrite H, length_append, append_assoc. cbn [String.length].
    unfold PROGRESS_BAR_LENGTH, MAX_SUPPLY, THOUSAND in l.
    change (5000 / 1000)%Z with 5%Z in l.
    match goal with
    | |- context [String.length ?x + 1] =>
        replace (6 - String.length x) with (S (6 - (String.length x + 1)))
          by lia
    end.
    reflexivity.
  - unfold PROGRESS_BAR_LENGTH, MAX_SUPPLY, THOUSAND in n.
    change (5000 / 1000)%Z with 5%Z in n.
    match goal with
    | |- context [6 - String.length ?x] =>
        replace (6 - String.length x) with 0 by lia
    end.
    symmetry. apply append_nil_r.
Qed.

Lemma string_repeat_snoc (c : ascii) (n : nat) :
  string_repeat c n +:+ String c EmptyString = String c (string_repeat c n).
Proof.
  induction n as [|n IH]; [reflexivity|].
  cbn [string_repeat].
  change (String c (string_repeat c n) +:+ String c "")
    with (String c (string_repeat c n +:+ String c "")).
  rewrite IH. reflexivity.
Qed.

Lemma length_string_repeat (c : ascii) (n : nat) :
  String.length (string_repeat c n) = n.
Proof.
  induction n as [|n IH]; [reflexivity|].
  cbn [string_repeat String.length]. rewrite IH. reflexivity.
Qed.

(** X4: the progress bar is [[], then one [#] for each unit of [count]
    (none for a count below 1), then as many [_] as are missing to five
    slots, then []]: seven characters for a count up to 5, [count + 2]
    beyond, where nothing is padded and nothing is cut. *)
Theorem progress_bar_shape (count : Z) :
  progress_bar count
  = "[" +:+ string_repeat "#" (Z.to_nat count)
        +:+ string_repeat "_" (5 - Z.to_nat count) +:+ "]"
  /\ String.length (progress_bar count) = Nat.max (Z.to_nat count) 5 + 2.
Proof.
  assert (Hfill : forall n,
            Nat.iter n (fun bar => bar +:+ "#") "["
            = "[" +:+ string_repeat "#" n).
  { induction n as [|n IH]; [reflexivity|].
    rewrite Nat.iter_succ, IH, append_assoc, string_repeat_snoc.
    reflexivity. }
  assert (Heq : progress_bar count
                = "[" +:+ string_repeat "#" (Z.to_nat count)
                  +:+ string_repeat "_" (5 - Z.to_nat count) +:+ "]").
  { unfold progress_bar. rewrite Hfill, pad_bar_spec, length_append.
    rewrite length_string_repeat. cbn [String.length].
    rewrite !append_assoc. reflexivity. }
  split; [exact Heq|].
  rewrite Heq, !length_append, !length_string_repeat. cbn [String.length].
  lia.
Qed.

Lemma longest_word_fold (word_data : list string) : forall acc,
  let r := fold_left (fun longest_word word =>
                        if String.length longest_word <? String.length word
                        then word else longest_word) word_data acc in
  (r = acc
   /\ Forall (fun w => String.length w <= String.length acc) word_data)
  \/ (exists l1 l2,
        word_data = l1 ++ r :: l2
        /\ String.length acc < String.length r
        /\ Forall (fun w => String.length w < String.length r) l1
        /\ Forall (fun w => String.length w <= String.length r) l2).
Proof.
  induction word_data as [|w ws IH]; intros acc; cbn zeta.
  - left. split; [reflexivity | constructor].
  - cbn [fold_left].
    destruct (Nat.ltb_spec (String.length acc) (String.length w))
      as [Hlt|Hge].
    + destruct (IH w) as [[Hr Hall]|(l1 & l2 & Hd & Hlen & H1 & H2)].
      * right. exists [], ws. rewrite Hr.
        repeat split; [exact Hlt | constructor | exact Hall].
      * right. exists (w :: l1), l2. rewrite Hd at 1.
        repeat split; [lia | | exact H2].
        constructor; [exact Hlen | exact H1].
    + destruct (IH acc) as [[Hr Hall]|(l1 & l2 & Hd & Hlen & H1 & H2)].
      * left. split; [exact Hr|]. constructor; [exact Hge | exact Hall].
      * right. exists (w :: l1), l2. rewrite Hd at 1.
        repeat split; [exact Hlen | | exact H2].
        constructor; [lia | exact H1].
Qed.

(** X5: no word is longer than the word [print_longest_word] prints; that
    word is the empty string (when there is no word, or none but empty
    ones) or it occurs in the list, and every word before its first such
    occurrence is strictly shorter: among the longest words the first one
    is printed. *)
Theorem longest_word_first_longest (word_data : list string) :
  Forall (fun w => String.length w <= String.length (longest_word word_data))
         word_data
  /\ (longest_word word_data = EmptyString
      \/ exists l1 l2,
           word_data = l1 ++ longest_word word_data :: l2
           /\ Forall (fun w => String.length w
                               < String.length (longest_word word_data)) l1).
Proof.
  unfold longest_word.
  destruct (longest_word_fold word_data "")
    as [[Hr Hall]|(l1 & l2 & Hd & Hlen & H1 & H2)]; cbn zeta in *.
  - rewrite Hr. split; [exact Hall | left; reflexivity].
  - split.
    + rewrite Hd at 1. apply Forall_app. split.
      * eapply Forall_impl; [exact H1|]. intros; cbn in *; lia.
      * constructor; [lia | exact H2].
    + right. exists l1, l2. split; [exact Hd | exact H1].
Qed.

(** X6: the number of distinct words that [print_distinct_words] prints is
    the number of records [get_rarity] returns for the words (the data
    lines of [words.txt]); it never exceeds the total it prints, which is
    the sum of the occurrenceCounts of those records. *)
Theorem distinct_words_records `{PyFloat} (word_data : list string)
    (mapping : gmap string (list Z)) (total : Z)
    (out : list (RarityRecord string)) :
  get_rarity word_data mapping total = Some out ->
  length out = num_distinct_words word_data
  /\ num_distinct_words word_data <= length word_data
  /\ sum_list_with occurrenceCount out = length word_data.
Proof.
  intros Hout. pose proof (get_rarity_sum _ _ _ _ Hout) as Hsum.
  apply get_rarity_inv in Hout as ->.
  assert (Hn : num_distinct_words word_data = length (Counter word_data)).
  { unfold num_distinct_words.
    rewrite <- (length_fmap fst (Counter word_data)).
    rewrite <- (size_list_to_set (C := gset string) (Counter word_data).*1)
      by apply Counter_keys_NoDup.
    f_equal. apply set_eq. intros w. rewrite !elem_of_list_to_set.
    symmetry. apply Counter_keys_elem_of. }
  split; [|split; [|exact Hsum]].
  - rewrite sorted_perm, length_fmap. symmetry. exact Hn.
  - rewrite Hn, <- (length_fmap fst). apply submseteq_length.
    apply NoDup_submseteq; [apply Counter_keys_NoDup|].
    intros w. apply Counter_keys_elem_of.
Qed.

Lemma distinct_words_records_witness :
  num_distinct_words ["the"; "cat"; "the"; "sat"; "the"] = 3.
Proof.
  destruct (get_rarity_returns (H := Binary64.instance)
              ["the"; "cat"; "the"; "sat"; "the"] ∅ 5)
    as [out Hout]; [left; discriminate|].
  destruct (distinct_words_records (H := Binary64.instance)
              _ _ _ _ Hout) as [<- _].
  apply get_rarity_inv in Hout as ->.
  rewrite sorted_perm, length_fmap. reflexivity.
Defined.

(** ** The lines of the files *)

Lemma int_of_str_int (n : Z) : int_of_str (str_int n) = Some n.
Proof.
  unfold int_of_str, str_int. rewrite NilZero.isi.
  - cbn. f_equal. apply DecimalZ.of_to.
  - destruct n; cbn; try discriminate.
    intros [= E]. exact (DecimalPos.Unsigned.to_uint_nonnil _ E).
  - destruct n; cbn; try discriminate.
    intros [= E]. exact (DecimalPos.Unsigned.to_uint_nonnil _ E).
Qed.

Lemma string_of_uint_chars (d : Decimal.uint) :
  Forall (fun c => digit_or_minus c = true)
         (chars (NilEmpty.string_of_uint d)).
Proof.
  induction d; cbn [NilEmpty.string_of_uint chars list_ascii_of_string];
    constructor; (reflexivity || assumption).
Qed.

Lemma str_int_chars (n : Z) :
  Forall (fun c => digit_or_minus c = true) (chars (str_int n)).
Proof.
  assert (Hu : forall d, Forall (fun c => digit_or_minus c = true)
                                (chars (NilZero.string_of_uint d))).
  { intros d. destruct d; try apply string_of_uint_chars.
    repeat constructor. }
  unfold str_int. destruct (Z.to_int n) as [d|d]; cbn [NilZero.string_of_int].
  - apply Hu.
  - cbn [chars list_ascii_of_string]. constructor; [reflexivity | apply Hu].
Qed.

(** X7: the identifiers of a record can be read back from its line: the
    text between the brackets, split at [;], is the decimal text of each
    identifier in order, provided there is an identifier at all (an empty
    list prints as [[]], which splits into one empty fragment). *)
Theorem token_ids_read_back (token_ids : list Z) :
  token_ids <> [] ->
  int_of_str <$> split ";" (join ";" (map str_int token_ids))
  = Some <$> token_ids.
Proof.
  intros Hne. rewrite split_join.
  - rewrite <- list_fmap_compose. apply list_fmap_ext.
    intros _ n _. apply int_of_str_int.
  - destruct token_ids; [contradiction | discriminate].
  - apply Forall_forall. intros w Hw%list_elem_of_In%in_map_iff.
    destruct Hw as (n & <- & _). intros Hin.
    pose proof (str_int_chars n) as Hall. rewrite Forall_forall in Hall.
    specialize (Hall _ Hin). discriminate Hall.
Qed.

Lemma token_ids_read_back_witness :
  record_line id ("the cat sat", 2, "66.67%", [10; 30]%Z)
  = "the cat sat,2,66.67%,[10;30]"
  /\ int_of_str <$> split ";" "10;30" = [Some 10%Z; Some 30%Z].
Proof.
  split; [reflexivity|].
  exact (token_ids_read_back [10; 30]%Z ltac:(discriminate)).
Defined.

(** ** More on [get_rarity] *)

(** X8: [get_rarity] ends in a [ZeroDivisionError] exactly when [total] is
    zero and there is some data; on empty data it returns, whatever the
    total. *)
Theorem get_rarity_raises_iff `{PyFloat} {K : Type} `{Countable K}
    (data : list K) (mapping : gmap K (list Z)) (total : Z) :
  get_rarity data mapping total = None <-> total = 0%Z /\ data <> [].
Proof.
  split.
  - intros Hnone. destruct (decide (total = 0%Z)) as [->|Hnz].
    + split; [reflexivity|]. intros ->. discriminate Hnone.
    + destruct (get_rarity_returns data mapping total (or_introl Hnz))
        as [out Hout].
      congruence.
  - intros [-> Hne]. unfold get_rarity. rewrite rarity_loop_zero.
    destruct (Counter data) as [|p c] eqn:Hc; [|reflexivity].
    destruct data as [|k data]; [contradiction|].
    assert (Hk : k ∈ (Counter (k :: data)).*1)
      by (apply Counter_keys_elem_of; left).
    rewrite Hc in Hk. inversion Hk.
Qed.

(** X9: [get_rarity] returns one record for each distinct key of the data
    and no other: the keys of the records are pairwise different and are
    the keys that occur in the data; and the identifiers of a record are
    the list the mapping holds for its key, the empty list when the mapping
    has no such key (no [KeyError]). *)
Theorem get_rarity_one_record_per_key `{PyFloat} {K : Type} `{Countable K}
    (data : list K) (mapping : gmap K (list Z)) (total : Z)
    (out : list (RarityRecord K)) :
  get_rarity data mapping total = Some out ->
  NoDup (record_key <$> out)
  /\ (forall k, k ∈ record_key <$> out <-> k ∈ data)
  /\ forall x, x ∈ out ->
       record_ids x = match mapping !! record_key x with
                      | Some ids => ids
                      | None => []
                      end.
Proof.
  intros Hout. pose proof Hout as ->%get_rarity_inv.
  assert (Hkeys : record_key <$> sorted occurrenceCount
                    (record_of mapping total <$> Counter data)
                  ≡ₚ (Counter data).*1).
  { rewrite sorted_perm, <- list_fmap_compose.
    erewrite list_fmap_ext; [reflexivity|]. intros _ [k v] _. reflexivity. }
  split; [rewrite Hkeys; apply Counter_keys_NoDup|]. split.
  - intros k. rewrite Hkeys. apply Counter_keys_elem_of.
  - intros x Hx.
    destruct (get_rarity_elem_of _ _ _ _ _ Hout Hx) as (_ & _ & _ & ->).
    unfold mapping_get. destruct (mapping !! record_key x); reflexivity.
Qed.

Lemma get_rarity_one_record_per_key_witness :
  NoDup ["d"; "c"; "b"; "a"].
Proof.
  refine (proj1 (get_rarity_one_record_per_key (H := Binary64.instance)
            ["c"; "b"; "a"; "c"; "a"; "d"; "b"] ∅ 7
            [("d", 1, "14.29%", []); ("c", 2, "28.57%", []);
             ("b", 2, "28.57%", []); ("a", 2, "28.57%", [])] _)).
  vm_compute. reflexivity.
Defined.

(** X10: the three calls of [get_rarity] of the script cannot divide by
    zero, whatever the aggregator produced: the total of the words is zero
    only when there is no word, and then the call returns no record. *)
Theorem rarity_stage_never_divides_by_zero `{PyFloat} (o : organized) :
  exists r, rarity_stage o = Some r /\ (o.1.1.1.1.1 = [] -> r.1.1 = []).
Proof.
  destruct (rarity_stage_returns o) as [r Hr]. exists r. split; [exact Hr|].
  intros Hw. apply rarity_stage_Some in Hr as (Hwr & _ & _).
  rewrite Hw in Hwr. cbn in Hwr. congruence.
Qed.

(** ** More on the enumerator *)

(** X11: when the index answers the hundred offsets 0, 50, ..., 4950, the
    enumerator returns after exactly a hundred requests, with the pages
    concatenated in the order of the offsets; if every page holds fifty
    identifiers, it returns [MAX_SUPPLY] of them.  It neither checks the
    size of a page nor removes repeated identifiers. *)
Theorem enumerator_complete (opensea : Z -> option (list Z)) :
  (forall i, i < 100 ->
     exists page, opensea (Z.of_nat i * LIMIT)%Z = Some page) ->
  exists tr pages,
    get_claimed_token_ids opensea = (tr, Some (concat pages))
    /\ Forall2 (fun i page => opensea (Z.of_nat i * LIMIT)%Z = Some page)
               (seq 0 100) pages
    /\ length (requests tr) = 100
    /\ (Forall (fun page => length page = 50) pages ->
        Z.of_nat (length (concat pages)) = MAX_SUPPLY).
Proof.
  intros Hpages.
  destruct (get_claimed_token_ids opensea) as [tr r] eqn:Hrun.
  destruct (claimed_loop_requests opensea [] 0 tr r Hrun)
    as (n & Hreq & Hle & Hr).
  assert (Hn : n <= 100).
  { destruct n as [|m]; [lia|]. specialize (Hle m ltac:(lia)).
    unfold MAX_SUPPLY, LIMIT in Hle. lia. }
  destruct r as [all|].
  - destruct Hr as (Hstop & pages & Hall & ->).
    assert (n = 100) as -> by (unfold MAX_SUPPLY, LIMIT in Hstop; lia).
    exists tr, pages. split; [reflexivity|]. split; [|split].
    + eapply Forall2_impl; [exact Hall|]. intros i p <-. f_equal.
    + rewrite Hreq, length_fmap, length_seq. reflexivity.
    + intros Hlen. apply Forall2_length in Hall. rewrite length_seq in Hall.
      assert (Hsum : length (concat pages) = 50 * length pages).
      { clear -Hlen. induction Hlen as [|p ps Hp _ IH]; [reflexivity|].
        cbn [concat]. rewrite length_app, Hp, IH. cbn [length]. lia. }
      rewrite Hsum, <- Hall. reflexivity.
  - exfalso. destruct Hr as (m & -> & Hnone).
    destruct (Hpages m ltac:(lia)) as [page Hp].
    rewrite Z.add_0_l in Hnone. congruence.
Qed.

Lemma enumerator_complete_witness :
  exists tr pages,
    get_claimed_token_ids fifty_per_page = (tr, Some (concat pages))
    /\ length (requests tr) = 100.
Proof.
  destruct (enumerator_complete fifty_per_page)
    as (tr & pages & Hrun & _ & Hreq & _).
  - intros i _. eexists. reflexivity.
  - exists tr, pages. split; [exact Hrun | exact Hreq].
Defined.

(** ** More on the aggregator *)

Lemma fmap_fetched {B : Type} (getString : Z -> option string)
    (f : string -> B) (d : B) (claimed : list Z) (texts : list string) :
  Forall2 (fun id text => getString id = Some text) claimed texts ->
  (fun p => f p.2) <$> zip claimed texts
  = (fun id => from_option f d (getString id)) <$> claimed.
Proof.
  induction 1 as [|id text claimed texts Hg _ IH]; [reflexivity|].
  cbn [zip zip_with]. rewrite !fmap_cons, IH, Hg. reflexivity.
Qed.

Lemma filter_fetched {B : Type} `{EqDecision B}
    (getString : Z -> option string) (f : string -> B) (d : B) (b : B)
    (claimed : list Z) (texts : list string) :
  Forall2 (fun id text => getString id = Some text) claimed texts ->
  (filter (fun p => f p.2 = b) (zip claimed texts)).*1
  = filter (fun id => from_option f d (getString id) = b) claimed.
Proof.
  induction 1 as [|id text claimed texts Hg _ IH]; [reflexivity|].
  cbn [zip zip_with]. rewrite !filter_cons. cbn [snd]. rewrite Hg.
  cbn [from_option].
  destruct (decide (f text = b)); [rewrite fmap_cons|]; rewrite IH;
    reflexivity.
Qed.

(** X12: when [organize_text_data] returns, the contract was called once
    for each claimed identifier, in order, and the outputs follow that
    order: the i-th complete text is the normalised string of the i-th
    identifier, the i-th word count the number of its tokens, the list of
    words the tokens of all texts one after the other; so the word counts
    add up to the number of words. *)
Theorem organize_outputs_aligned (getString : Z -> option string)
    (raised : Z -> exn) (claimed : list Z) (tr : list event) (o : organized) :
  organize_text_data getString raised claimed = (tr, Some o) ->
  calls tr = claimed
  /\ o.1.1.1.2
     = (fun id => from_option normalize "" (getString id)) <$> claimed
  /\ o.1.1.1.1.2
     = (fun id => from_option (fun t => length (tokens_of t)) 0
                              (getString id)) <$> claimed
  /\ o.1.1.1.1.1
     = claimed ≫= (fun id => from_option tokens_of [] (getString id))
  /\ sum_list o.1.1.1.1.2 = length o.1.1.1.1.1.
Proof.
  intros (texts & Hall & -> & Hcalls)%organize_text_data_Some.
  unfold organize_result. cbn [fst snd].
  rewrite aggregate_all_words, aggregate_all_counts, aggregate_all_texts.
  init_fields.
  split; [exact Hcalls|]. split; [|split; [|split]].
  - apply (fmap_fetched getString normalize ""), Hall.
  - apply (fmap_fetched getString (fun t => length (tokens_of t)) 0), Hall.
  - transitivity (zip claimed texts ≫= (fun p => tokens_of p.2)).
    + generalize (zip claimed texts). intros l.
      induction l as [|p l IH]; [reflexivity|].
      rewrite fmap_cons, bind_cons. cbn [concat]. rewrite IH. reflexivity.
    + exact (bind_fetched getString (fun _ t => tokens_of t)
                          claimed texts Hall).
  - generalize (zip claimed texts). intros l.
    induction l as [|p l IH]; [reflexivity|].
    rewrite !fmap_cons. cbn [concat sum_list_with]. rewrite length_app, IH.
    reflexivity.
Qed.

Lemma organize_outputs_aligned_witness :
  exists tr o,
    organize_text_data three_texts solidity_errors [10; 20; 30]%Z = (tr, Some o)
    /\ calls tr = [10; 20; 30]%Z
    /\ o.1.1.1.2 = ["the cat sat"; "the dog sat"; "the cat sat"].
Proof.
  destruct (returned_true (organize_text_data three_texts solidity_errors [10; 20; 30]%Z))
    as (tr & o & Hrun); [vm_compute; reflexivity|].
  destruct (organize_outputs_aligned _ _ _ _ _ Hrun) as (Hc & Ht & _).
  exists tr, o. split; [exact Hrun|]. split; [exact Hc | exact Ht].
Defined.

(** X13: in the mapping of the word counts and in the mapping of the
    complete texts, the list of a key is the claimed identifiers that have
    that key, in the order they were claimed; so an identifier is listed
    under its own word count and its own text and under no other key. *)
Theorem organize_one_key_per_identifier (getString : Z -> option string)
    (raised : Z -> exn) (claimed : list Z) (tr : list event) (o : organized) :
  organize_text_data getString raised claimed = (tr, Some o) ->
  (forall n,
     mapping_get o.1.2 n
     = filter (fun id => from_option (fun t => length (tokens_of t)) 0
                                     (getString id) = n) claimed)
  /\ (forall text,
        mapping_get o.2 text
        = filter (fun id => from_option normalize "" (getString id) = text)
                 claimed)
  /\ forall id raw,
       id ∈ claimed -> getString id = Some raw ->
       (forall n, id ∈ mapping_get o.1.2 n <-> n = length (tokens_of raw))
       /\ (forall text, id ∈ mapping_get o.2 text <-> text = normalize raw).
Proof.
  intros (texts & Hall & -> & _)%organize_text_data_Some.
  unfold organize_result. cbn [fst snd].
  assert (Hc : forall n,
     mapping_get
       (output_total_word_count_to_token_id
          (aggregate_all (zip claimed texts) organize_init)) n
     = filter (fun id => from_option (fun t => length (tokens_of t)) 0
                                     (getString id) = n) claimed).
  { intros n. rewrite aggregate_all_count_to_token_id. init_fields.
    rewrite organize_init_get.
    apply (filter_fetched getString (fun t => length (tokens_of t)) 0 n),
      Hall. }
  assert (Ht : forall text,
     mapping_get
       (output_complete_text_to_token_id
          (aggregate_all (zip claimed texts) organize_init)) text
     = filter (fun id => from_option normalize "" (getString id) = text)
              claimed).
  { intros text. rewrite aggregate_all_text_to_token_id. init_fields.
    rewrite organize_init_get.
    apply (filter_fetched getString normalize "" text), Hall. }
  split; [exact Hc|]. split; [exact Ht|].
  intros id raw Hin Hraw. split.
  - intros n. rewrite Hc, list_elem_of_filter, Hraw. cbn [from_option].
    split; [intros [<- _]; reflexivity | intros ->; auto].
  - intros text. rewrite Ht, list_elem_of_filter, Hraw. cbn [from_option].
    split; [intros [<- _]; reflexivity | intros ->; auto].
Qed.

Lemma organize_one_key_per_identifier_witness :
  exists tr o,
    organize_text_data three_texts solidity_errors [10; 20; 30]%Z = (tr, Some o)
    /\ mapping_get o.1.2 3 = [10; 20; 30]%Z
    /\ mapping_get o.2 "the dog sat" = [20]%Z.
Proof.
  destruct (returned_true (organize_text_data three_texts solidity_errors [10; 20; 30]%Z))
    as (tr & o & Hrun); [vm_compute; reflexivity|].
  destruct (organize_one_key_per_identifier _ _ _ _ _ Hrun) as (Hc & Ht & _).
  exists tr, o. split; [exact Hrun|]. split.
  - rewrite Hc. vm_compute. reflexivity.
  - rewrite Ht. vm_compute. reflexivity.
Defined.

Lemma organize_loop_fails (getString : Z -> option string)
    (raised : Z -> exn) (before : list Z) (id : Z) (after : list Z) :
  forall i st,
  Forall (fun i => is_Some (getString i)) before ->
  getString id = None ->
  exists tr,
    organize_loop getString raised i (before ++ id :: after) st = (tr, None)
    /\ calls tr = before ++ [id]
    /\ last tr = Some (match raised id with
                       | SolidityError => EDiagnostic
                       | OtherException => ECall id
                       end).
Proof.
  induction before as [|id0 before IH]; intros i st Hall Hnone.
  - cbn [app organize_loop]. rewrite Hnone.
    destruct (raised id); (eexists; split; [reflexivity|]; split; reflexivity).
  - apply Forall_cons in Hall as [[text Hg] Hall].
    cbn [app organize_loop]. rewrite Hg.
    destruct (IH (i + 1)%Z (aggregate id0 text st) Hall Hnone)
      as (tr & Hrun & Hcalls & Hlast).
    rewrite bind_emit.
    destruct (decide _);
      repeat (first [rewrite bind_emit | rewrite bind_ret | rewrite Hrun];
              cbn [fst snd]);
      (eexists; split; [reflexivity|]; split;
       [cbn; f_equal; exact Hcalls | rewrite !last_cons, Hlast; reflexivity]).
Qed.

(** X14: the first call of the contract that raises ends
    [organize_text_data]: the identifiers before it were called in order,
    the failing one is the last call, no identifier after it is called and
    nothing is returned.  A [SolidityError] is printed, and that print is
    the last event; any other exception is not caught, and the failing
    call itself is the last event: nothing at all is printed for it. *)
Theorem organize_fails_fast (getString : Z -> option string)
    (raised : Z -> exn) (before : list Z) (id : Z) (after : list Z) :
  Forall (fun i => is_Some (getString i)) before ->
  getString id = None ->
  exists tr,
    organize_text_data getString raised (before ++ id :: after) = (tr, None)
    /\ calls tr = before ++ [id]
    /\ (raised id = SolidityError -> last tr = Some EDiagnostic)
    /\ (raised id = OtherException ->
        last tr = Some (ECall id) /\ EDiagnostic ∉ tr).
Proof.
  intros Hall Hnone. unfold organize_text_data.
  destruct (organize_loop_fails getString raised before id after 0%Z
              organize_init Hall Hnone) as (tr & Hrun & Hcalls & Hlast).
  rewrite Hrun. exists tr. split; [reflexivity|]. split; [exact Hcalls|].
  split; [intros Hr; rewrite Hr in Hlast; exact Hlast|].
  intros Hr. rewrite Hr in Hlast. split; [exact Hlast|].
  clear Hcalls Hlast. revert Hrun. generalize 0%Z organize_init.
  revert tr. induction before as [|id0 before IH]; intros tr i st Hrun.
  - cbn [app organize_loop] in Hrun. rewrite Hnone, Hr in Hrun.
    injection Hrun as <-. intros Hin. apply elem_of_cons in Hin as [|Hin];
      [discriminate | inversion Hin].
  - apply Forall_cons in Hall as [[text Hg] Hall].
    cbn [app organize_loop] in Hrun. rewrite Hg, bind_emit in Hrun.
    destruct (organize_loop getString raised (i + 1) (before ++ id :: after)
                (aggregate id0 text st)) as [tr' r'] eqn:Hrec.
    specialize (IH Hall tr' (i + 1)%Z (aggregate id0 text st)).
    assert (r' = None /\ EDiagnostic ∉ tr') as [-> Hnot].
    { destruct (organize_loop_fails getString raised before id after
                  (i + 1)%Z (aggregate id0 text st) Hall Hnone)
        as (tr'' & Hrun'' & _).
      rewrite Hrec in Hrun''. injection Hrun'' as -> ->.
      split; [reflexivity|]. apply IH. exact Hrec. }
    destruct (decide _);
      repeat (first [rewrite bind_emit in Hrun | rewrite bind_ret in Hrun
                    | rewrite Hrec in Hrun]; cbn [fst snd] in Hrun);
      injection Hrun as <-; intros Hin;
      repeat (apply elem_of_cons in Hin as [Hin|Hin]; [discriminate|]);
      contradiction.
Qed.

Lemma organize_fails_fast_witness :
  exists tr,
    organize_text_data three_texts solidity_errors [10; 99; 20]%Z = (tr, None)
    /\ calls tr = [10; 99]%Z
    /\ last tr = Some EDiagnostic.
Proof.
  destruct (organize_fails_fast three_texts solidity_errors [10%Z] 99 [20%Z])
    as (tr & Hrun & Hcalls & Hlast & _).
  - repeat constructor. eexists. reflexivity.
  - reflexivity.
  - exists tr. split; [exact Hrun|]. split; [exact Hcalls|].
    apply Hlast. reflexivity.
Defined.

(** ** The script as a whole *)















(** * Floating point *)

(** ** Rounding to binary64 *)

Section Rounding.
Local Open Scope Z_scope.

Lemma round_half_even_exact m d : 0 < d -> Binary64.round_half_even (m * d) d = m.
Proof.
  intros Hd. unfold Binary64.round_half_even.
  rewrite Z.div_mul, Z.mod_mul by lia.
  destruct (Z.ltb_spec (2 * 0) d); [reflexivity | lia].
Qed.

Lemma round_half_even_scale c n d :
  0 < c -> 0 < d -> Binary64.round_half_even (c * n) (c * d) = Binary64.round_half_even n d.
Proof.
  intros Hc Hd. unfold Binary64.round_half_even.
  rewrite Z.div_mul_cancel_l, Z.mul_mod_distr_l by lia.
  destruct (Z.ltb_spec (2 * (c * (n mod d))) (c * d)),
           (Z.ltb_spec (2 * (n mod d)) d); try nia; try reflexivity.
  destruct (Z.ltb_spec (c * d) (2 * (c * (n mod d)))),
           (Z.ltb_spec d (2 * (n mod d))); try nia; reflexivity.
Qed.

Lemma round_half_even_bounds n d :
  0 < d -> n / d <= Binary64.round_half_even n d <= n / d + 1.
Proof.
  intros Hd. unfold Binary64.round_half_even.
  repeat match goal with |- context [if ?b then _ else _] => destruct b end;
    lia.
Qed.

Lemma rnd_scale neg c num den :
  0 < c -> 0 < den -> Binary64.rnd neg (c * num) (c * den) = Binary64.rnd neg num den.
Proof.
  intros Hc Hd. unfold Binary64.rnd.
  rewrite Z.div_mul_cancel_l by lia.
  rewrite <- Z.mul_assoc, round_half_even_scale; [reflexivity | lia |].
  apply Z.mul_pos_pos; [lia|]. apply Z.pow_pos_nonneg; lia.
Qed.

Lemma rnd_idempotent neg u d :
  Binary64.representable u -> 0 < d -> Binary64.rnd neg (u * d) d = Binary64.Finite neg u.
Proof.
  intros [Hu Hmod] Hd. unfold Binary64.rnd.
  rewrite Z.div_mul by lia.
  set (e := Z.max 0 (Z.log2 u - 52)) in *.
  assert (He : 0 < 2 ^ e) by (apply Z.pow_pos_nonneg; lia).
  apply Z.div_exact in Hmod; [|lia].
  replace (u * d) with (u / 2 ^ e * (d * 2 ^ e)) by (rewrite Hmod at 2; ring).
  rewrite round_half_even_exact by nia.
  replace (u / 2 ^ e * 2 ^ e) with u by (rewrite Hmod at 1; ring).
  destruct (Z.leb_spec Binary64.overflow u); [lia | reflexivity].
Qed.

Lemma rnd_valid neg num den : 0 <= num -> 0 < den -> Binary64.valid (Binary64.rnd neg num den).
Proof.
  intros Hn Hd. unfold Binary64.rnd.
  set (q0 := num / den).
  set (e := Z.max 0 (Z.log2 q0 - 52)).
  set (m := Binary64.round_half_even num (den * 2 ^ e)).
  assert (Hq0 : 0 <= q0) by (apply Z.div_pos; lia).
  assert (He : 0 < 2 ^ e) by (apply Z.pow_pos_nonneg; lia).
  assert (Hm : 0 <= m <= 2 ^ 53).
  { pose proof (round_half_even_bounds num (den * 2 ^ e) ltac:(nia)) as Hb.
    fold m in Hb. rewrite <- Z.div_div in Hb by lia. fold q0 in Hb.
    assert (0 <= q0 / 2 ^ e) by (apply Z.div_pos; lia).
    assert (q0 / 2 ^ e < 2 ^ 53); [|lia].
    apply Z.div_lt_upper_bound; [lia|].
    rewrite <- Z.pow_add_r by lia.
    destruct (Z.eq_dec q0 0) as [->|Hnz].
    - apply Z.pow_pos_nonneg; lia.
    - pose proof (Z.log2_spec q0 ltac:(lia)) as [_ Hlt].
      eapply Z.lt_le_trans; [exact Hlt|].
      apply Z.pow_le_mono_r; lia. }
  destruct (Z.leb_spec Binary64.overflow (m * 2 ^ e)) as [|Hov]; [exact I|].
  split; [nia|].
  destruct (Z.eq_dec m 0) as [->|Hnz]; [reflexivity|].
  rewrite Z.log2_mul_pow2 by lia.
  destruct (Z.eq_dec m (2 ^ 53)) as [->|Hne].
  - rewrite Z.log2_pow2 by lia.
    replace (Z.max 0 (e + 53 - 52)) with (e + 1) by lia.
    rewrite <- Z.pow_add_r by lia.
    replace (53 + e) with (52 + (e + 1)) by lia.
    rewrite Z.pow_add_r by lia. apply Z.mod_mul. lia.
  - assert (Z.log2 m < 53) by (apply Z.log2_lt_pow2; lia).
    set (k := Z.max 0 (e + Z.log2 m - 52)).
    replace e with ((e - k) + k) at 1 by lia.
    rewrite Z.pow_add_r by lia. rewrite Z.mul_assoc. apply Z.mod_mul.
    apply Z.pow_nonzero; lia.
Qed.

End Rounding.

Section Operations.
Local Open Scope Z_scope.

Lemma quantum_pos : 0 < Binary64.quantum.
Proof. apply Z.pow_pos_nonneg; lia. Qed.

Lemma truediv_valid a b : b <> 0 -> Binary64.valid (Binary64.truediv a b).
Proof.
  intros Hb. pose proof quantum_pos. apply rnd_valid; [nia | lia].
Qed.

Lemma of_int_valid n : Binary64.valid (Binary64.of_int n).
Proof. pose proof quantum_pos. apply rnd_valid; [nia | lia]. Qed.

Lemma mul_valid x y : Binary64.valid x -> Binary64.valid y -> Binary64.valid (Binary64.mul x y).
Proof.
  destruct x as [s u| |], y as [s' u'| |]; simpl; try exact (fun _ _ => I).
  - intros [Hu _] [Hu' _]. apply rnd_valid; [nia | apply quantum_pos].
  - destruct (u =? 0); exact (fun _ _ => I).
  - destruct (u' =? 0); exact (fun _ _ => I).
Qed.

Lemma of_decimal_valid neg D x : 0 <= D -> Binary64.valid (Binary64.of_decimal neg D x).
Proof.
  intros HD. pose proof quantum_pos. unfold Binary64.of_decimal.
  destruct (Z.leb_spec 0 x).
  - apply rnd_valid; [|lia].
    assert (0 < 10 ^ x) by (apply Z.pow_pos_nonneg; lia). nia.
  - apply rnd_valid; [nia|]. apply Z.pow_pos_nonneg; lia.
Qed.

Lemma round_half_even_nonneg n d : 0 <= n -> 0 < d -> 0 <= Binary64.round_half_even n d.
Proof.
  intros Hn Hd. pose proof (round_half_even_bounds n d Hd).
  assert (0 <= n / d) by (apply Z.div_pos; lia). lia.
Qed.

Lemma round_valid x ndigits : Binary64.valid x -> Binary64.valid (Binary64.round x ndigits).
Proof.
  destruct x as [neg u| |]; simpl; try exact (fun H => H).
  intros Hu. pose proof quantum_pos.
  destruct (Binary64.NDIGITS_MAX <? ndigits); [exact Hu|].
  destruct (ndigits <? Binary64.NDIGITS_MIN).
  { split; [|reflexivity]. split; [lia|]. apply Z.pow_pos_nonneg; lia. }
  destruct Hu as [Hu _].
  apply of_decimal_valid. destruct (Z.leb_spec 0 ndigits).
  - apply round_half_even_nonneg; [|lia].
    assert (0 < 10 ^ ndigits) by (apply Z.pow_pos_nonneg; lia). nia.
  - apply round_half_even_nonneg; [lia|].
    assert (0 < 10 ^ (- ndigits)) by (apply Z.pow_pos_nonneg; lia). nia.
Qed.

(** Moving powers of ten between the digits and the exponent does not
    change the number read. *)
Lemma of_decimal_shift neg D x j :
  0 <= j -> Binary64.of_decimal neg (D * 10 ^ j) x = Binary64.of_decimal neg D (x + j).
Proof.
  intros Hj. unfold Binary64.of_decimal.
  assert (Hp : forall k, 0 <= k -> 0 < 10 ^ k)
    by (intros; apply Z.pow_pos_nonneg; lia).
  destruct (Z.leb_spec 0 x), (Z.leb_spec 0 (x + j)); try lia.
  - rewrite Z.pow_add_r by lia. f_equal. ring.
  - replace (D * 10 ^ j * Binary64.quantum)
      with (10 ^ (- x) * (D * 10 ^ (x + j) * Binary64.quantum)).
    + rewrite <- (Z.mul_1_r (10 ^ (- x))) at 2.
      apply rnd_scale; [apply Hp|]; lia.
    + replace (10 ^ j) with (10 ^ (- x) * 10 ^ (x + j)); [ring|].
      rewrite <- Z.pow_add_r by lia. f_equal. lia.
  - replace (10 ^ (- x)) with (10 ^ j * 10 ^ (- (x + j))).
    + replace (D * 10 ^ j * Binary64.quantum) with (10 ^ j * (D * Binary64.quantum)) by ring.
      apply rnd_scale; apply Hp; lia.
    + rewrite <- Z.pow_add_r by lia. f_equal. lia.
Qed.

(** The decimal expansion of a binary64 number reads back to it. *)
Lemma of_decimal_exact neg u :
  Binary64.representable u -> Binary64.of_decimal neg (u * 5 ^ 1074) (- 1074) = Binary64.Finite neg u.
Proof.
  intros Hu. unfold Binary64.of_decimal.
  change (0 <=? - 1074) with false. cbv iota.
  change (- - 1074) with 1074.
  replace (u * 5 ^ 1074 * Binary64.quantum) with (u * 10 ^ 1074).
  - apply rnd_idempotent; [exact Hu|]. apply Z.pow_pos_nonneg; lia.
  - unfold Binary64.quantum. change 10 with (5 * 2). rewrite Z.pow_mul_l. ring.
Qed.

End Operations.

Section Digits.
Local Open Scope Z_scope.

Lemma is_digit_inv c :
  Binary64.is_digit c = true ->
  exists d, 0 <= d < 10 /\ c = Binary64.digit_char d /\ Binary64.digit_value c = d.
Proof.
  intros Hc. exists (Binary64.digit_value c).
  destruct c as [[] [] [] [] [] [] [] []]; try discriminate Hc;
    vm_compute; repeat split; discriminate.
Qed.

Lemma digit_char_is_digit d :
  0 <= d < 10 ->
  Binary64.is_digit (Binary64.digit_char d) = true /\ Binary64.digit_value (Binary64.digit_char d) = d.
Proof.
  intros Hd.
  assert (d = 0 \/ d = 1 \/ d = 2 \/ d = 3 \/ d = 4 \/ d = 5 \/ d = 6
          \/ d = 7 \/ d = 8 \/ d = 9) as Hcases by lia.
  repeat destruct Hcases as [->|Hcases]; try subst d; split; reflexivity.
Qed.

Lemma digit_string_nil : digit_string "".
Proof. constructor. Qed.

Lemma digit_string_cons c s :
  digit_string (String c s) <-> Binary64.is_digit c = true /\ digit_string s.
Proof.
  exact (Forall_cons (fun c => Binary64.is_digit c = true) c (chars s)).
Qed.

Lemma digit_string_app s t :
  digit_string (s +:+ t) <-> digit_string s /\ digit_string t.
Proof.
  induction s as [|c s IH].
  - change ("" +:+ t) with t. split; [intros H; split; [constructor | exact H]|].
    intros [_ H]. exact H.
  - change (String c s +:+ t) with (String c (s +:+ t)).
    rewrite !digit_string_cons, IH. tauto.
Qed.

Lemma int_of_digits_app a s t :
  Binary64.int_of_digits a (s +:+ t) = Binary64.int_of_digits (Binary64.int_of_digits a s) t.
Proof.
  revert a. induction s as [|c s IH]; intros a; [reflexivity|].
  change (String c s +:+ t) with (String c (s +:+ t)).
  cbn [Binary64.int_of_digits]. apply IH.
Qed.

Lemma int_of_digits_shift a s :
  Binary64.int_of_digits a s
  = a * 10 ^ Z.of_nat (String.length s) + Binary64.int_of_digits 0 s.
Proof.
  revert a. induction s as [|c s IH]; intros a.
  - cbn. lia.
  - cbn [Binary64.int_of_digits String.length].
    rewrite IH, (IH (0 * 10 + _)), Nat2Z.inj_succ, Z.pow_succ_r by lia. ring.
Qed.

Lemma int_of_digits_zeros a n :
  Binary64.int_of_digits a (string_repeat "0" n) = a * 10 ^ Z.of_nat n.
Proof.
  revert a. induction n as [|n IH]; intros a.
  - cbn. lia.
  - cbn [string_repeat Binary64.int_of_digits]. rewrite IH, Nat2Z.inj_succ, Z.pow_succ_r by lia.
    change (Binary64.digit_value "0") with 0. ring.
Qed.

Lemma digit_string_zeros n : digit_string (string_repeat "0" n).
Proof.
  induction n as [|n IH]; [constructor|].
  cbn [string_repeat]. apply digit_string_cons. split; [reflexivity | exact IH].
Qed.

Lemma length_zeros n : String.length (string_repeat "0" n) = n.
Proof. induction n as [|n IH]; [reflexivity|]. cbn. rewrite IH. reflexivity. Qed.

Lemma digits_aux_spec fuel : forall n acc,
  0 <= n < 10 ^ Z.of_nat (S fuel) ->
  exists ds,
    Binary64.digits_aux fuel n acc = ds +:+ acc
    /\ digit_string ds /\ ds <> ""
    /\ forall a, Binary64.int_of_digits a ds
                 = a * 10 ^ Z.of_nat (String.length ds) + n.
Proof.
  assert (Hone : forall n acc, 0 <= n < 10 ->
    exists ds,
      String (Binary64.digit_char (n mod 10)) acc = ds +:+ acc
      /\ digit_string ds /\ ds <> ""
      /\ forall a, Binary64.int_of_digits a ds
                   = a * 10 ^ Z.of_nat (String.length ds) + n).
  { intros n acc Hn. exists (String (Binary64.digit_char n) "").
    rewrite Z.mod_small by lia.
    destruct (digit_char_is_digit n Hn) as [Hd Hv].
    split; [reflexivity|]. split.
    { apply digit_string_cons. split; [exact Hd | constructor]. }
    split; [discriminate|].
    intros a. cbn [Binary64.int_of_digits String.length]. rewrite Hv.
    change (Z.of_nat 1) with 1. lia. }
  induction fuel as [|fuel IH]; intros n acc Hn.
  - cbn [Binary64.digits_aux]. apply Hone. change (10 ^ Z.of_nat 1) with 10 in Hn. lia.
  - cbn [Binary64.digits_aux]. destruct (Z.ltb_spec n 10) as [Hlt|Hge].
    + apply Hone. lia.
    + destruct (IH (n / 10) (String (Binary64.digit_char (n mod 10)) acc))
        as (ds & Heq & Hds & _ & Hval).
      { split; [apply Z.div_pos; lia|].
        apply Z.div_lt_upper_bound; [lia|].
        rewrite <- Z.pow_succ_r by lia. rewrite <- Nat2Z.inj_succ. lia. }
      assert (0 <= n mod 10 < 10) as Hm by (apply Z.mod_pos_bound; lia).
      destruct (digit_char_is_digit _ Hm) as [Hd Hv].
      exists (ds +:+ String (Binary64.digit_char (n mod 10)) "").
      rewrite Heq, append_assoc. split; [reflexivity|]. split.
      { apply digit_string_app. split; [exact Hds|].
        apply digit_string_cons. split; [exact Hd | constructor]. }
      split; [destruct ds; discriminate|].
      intros a. rewrite int_of_digits_app, Hval.
      cbn [Binary64.int_of_digits]. rewrite Hv, length_append.
      cbn [String.length]. rewrite Nat2Z.inj_add, Z.pow_add_r by lia.
      change (Z.of_nat 1) with 1. rewrite Z.pow_1_r.
      pose proof (Z.div_mod n 10 ltac:(lia)). lia.
Qed.

Lemma digits_spec n :
  0 <= n ->
  digit_string (Binary64.digits n) /\ Binary64.digits n <> ""
  /\ Binary64.int_of_digits 0 (Binary64.digits n) = n.
Proof.
  intros Hn. unfold Binary64.digits.
  destruct (digits_aux_spec (Z.to_nat (Z.log2 n)) n "") as (ds & -> & Hds & Hne & Hval).
  - split; [lia|]. destruct (Z.eq_dec n 0) as [->|Hnz].
    { apply Z.pow_pos_nonneg; lia. }
    pose proof (Z.log2_spec n ltac:(lia)) as [_ Hlt].
    pose proof (Z.log2_nonneg n).
    rewrite Nat2Z.inj_succ, Z2Nat.id by lia.
    eapply Z.lt_le_trans; [exact Hlt|].
    apply Z.pow_le_mono_l. lia.
  - rewrite append_nil_r. split; [exact Hds|]. split; [exact Hne|].
    rewrite Hval. lia.
Qed.

End Digits.

Section Scanner.

Lemma span_digits_app ds rest :
  digit_string ds -> stops rest -> Binary64.span_digits (ds +:+ rest) = (ds, rest).
Proof.
  intros Hds Hrest. induction ds as [|c ds IH].
  - change ("" +:+ rest) with rest. destruct rest as [|c r]; [reflexivity|].
    cbn [Binary64.span_digits]. cbn in Hrest. rewrite Hrest. reflexivity.
  - apply digit_string_cons in Hds as [Hc Hds].
    change (String c ds +:+ rest) with (String c (ds +:+ rest)).
    cbn [Binary64.span_digits]. rewrite Hc, (IH Hds). reflexivity.
Qed.

Lemma all_digits_digit_string ds : digit_string ds -> Binary64.all_digits ds = true.
Proof.
  intros Hds. unfold Binary64.all_digits.
  rewrite <- (append_nil_r ds), span_digits_app by (exact Hds || exact I).
  reflexivity.
Qed.

Lemma substring_all s : substring 0 (String.length s) s = s.
Proof.
  induction s as [|c s IH]; [reflexivity|].
  cbn [String.length substring]. rewrite IH. reflexivity.
Qed.

Lemma substring_split k s :
  k <= String.length s ->
  substring 0 k s +:+ substring k (String.length s - k) s = s.
Proof.
  revert s. induction k as [|k IH]; intros s Hk.
  - rewrite Nat.sub_0_r, substring_all. destruct s; reflexivity.
  - destruct s as [|c s]; [cbn in Hk; lia|].
    cbn [String.length] in *. cbn [substring Nat.sub].
    change (String c (substring 0 k s) +:+ substring k (String.length s - k) s)
      with (String c (substring 0 k s +:+ substring k (String.length s - k) s)).
    rewrite IH by lia. reflexivity.
Qed.

Lemma length_substring_prefix k s :
  k <= String.length s -> String.length (substring 0 k s) = k.
Proof.
  revert s. induction k as [|k IH]; intros s Hk.
  - destruct s; reflexivity.
  - destruct s as [|c s]; [cbn in Hk; lia|].
    cbn [String.length] in *. cbn [substring String.length].
    rewrite IH by lia. reflexivity.
Qed.

Lemma exponent_text_spec x :
  Binary64.exponent ("e" +:+ Binary64.exponent_text x) = Some x.
Proof.
  unfold Binary64.exponent_text.
  destruct (digits_spec (Z.abs x) ltac:(lia)) as (Hds & Hne & Hval).
  set (pad := if (Z.abs x <? 10)%Z then "0" else "").
  assert (Hpad : digit_string (pad +:+ Binary64.digits (Z.abs x))
                 /\ nonempty (pad +:+ Binary64.digits (Z.abs x)) = true
                 /\ Binary64.int_of_digits 0 (pad +:+ Binary64.digits (Z.abs x)) = Z.abs x).
  { subst pad. destruct (Z.abs x <? 10)%Z.
    - split; [|split; [reflexivity | exact Hval]].
      apply digit_string_cons. split; [reflexivity | exact Hds].
    - split; [exact Hds|]. split; [|exact Hval].
      change ("" +:+ Binary64.digits (Z.abs x)) with (Binary64.digits (Z.abs x)).
      destruct (Binary64.digits (Z.abs x)); [congruence | reflexivity]. }
  destruct Hpad as (Hd & Hn & Hv).
  destruct (Z.ltb_spec x 0).
  - change ("e" +:+ "-" +:+ pad +:+ Binary64.digits (Z.abs x))
      with (String "e" (String "-" (pad +:+ Binary64.digits (Z.abs x)))).
    cbn [Binary64.exponent Ascii.eqb Bool.eqb orb andb].
    rewrite Hn, (all_digits_digit_string _ Hd), Hv. cbn [andb]. f_equal. lia.
  - change ("e" +:+ "+" +:+ pad +:+ Binary64.digits (Z.abs x))
      with (String "e" (String "+" (pad +:+ Binary64.digits (Z.abs x)))).
    cbn [Binary64.exponent Ascii.eqb Bool.eqb orb andb].
    rewrite Hn, (all_digits_digit_string _ Hd), Hv. cbn [andb]. f_equal. lia.
Qed.

Lemma of_str_digit (neg : bool) c r :
  Binary64.is_digit c = true ->
  Binary64.of_str ((if neg then "-" else "") +:+ String c r)
  = Binary64.number neg (String c r).
Proof.
  intros Hc.
  destruct c as [[] [] [] [] [] [] [] []]; try discriminate Hc;
    destruct neg; reflexivity.
Qed.

Lemma of_str_parts (neg : bool) ip fp mid tail x :
  digit_string ip -> ip <> "" -> digit_string fp ->
  mid = "." +:+ fp \/ (mid = "" /\ fp = "") ->
  (tail = "" /\ x = 0%Z) \/ tail = "e" +:+ Binary64.exponent_text x ->
  Binary64.of_str ((if neg then "-" else "") +:+ ip +:+ mid +:+ tail)
  = Some (Binary64.of_decimal neg (Binary64.int_of_digits 0 (ip +:+ fp))
                       (x - Z.of_nat (String.length fp))).
Proof.
  intros Hip Hne Hfp Hmid Htail.
  assert (Hx : Binary64.exponent tail = Some x /\ stops tail
               /\ match tail return Prop with
                  | String "." _ => False
                  | _ => True
                  end).
  { destruct Htail as [[-> ->]| ->].
    - repeat split.
    - split; [apply exponent_text_spec|]. split; [reflexivity | exact I]. }
  destruct Hx as (Hx & Hstop & Hdot).
  destruct ip as [|c ip]; [congruence|].
  change (String c ip +:+ mid +:+ tail) with (String c (ip +:+ mid +:+ tail)).
  rewrite of_str_digit by (apply digit_string_cons in Hip; tauto).
  change (String c (ip +:+ mid +:+ tail)) with (String c ip +:+ mid +:+ tail).
  unfold Binary64.number.
  assert (Hn : nonempty (String c ip +:+ fp) = true) by reflexivity.
  destruct Hmid as [->|[-> ->]].
  - rewrite span_digits_app; [|exact Hip | reflexivity].
    change (("." +:+ fp) +:+ tail) with (String "." (fp +:+ tail)).
    cbv iota. rewrite span_digits_app by assumption.
    rewrite Hn, Hx. reflexivity.
  - change ("" +:+ tail) with tail.
    rewrite span_digits_app by assumption.
    replace (match tail with
             | String "." r => Binary64.span_digits r
             | _ => ("", tail)
             end) with ("", tail).
    + rewrite Hn, Hx. reflexivity.
    + destruct tail as [|c' r]; [reflexivity|].
      destruct c' as [[] [] [] [] [] [] [] []]; try reflexivity.
      contradiction.
Qed.

End Scanner.

Section ReadBack.

Lemma digit_string_substring_prefix k s :
  digit_string s -> k <= String.length s ->
  digit_string (substring 0 k s)
  /\ digit_string (substring k (String.length s - k) s).
Proof.
  intros Hs Hk. apply digit_string_app. rewrite substring_split; assumption.
Qed.

(** What [format_short] prints, [float] reads as the digits times the
    power of ten that puts the point where [decpt] says. *)
Lemma of_str_format_short (neg : bool) ds decpt :
  digit_string ds -> ds <> "" ->
  Binary64.of_str (Binary64.format_short neg ds decpt)
  = Some (Binary64.of_decimal neg (Binary64.int_of_digits 0 ds)
                       (decpt - Z.of_nat (String.length ds))).
Proof.
  intros Hds Hne. unfold Binary64.format_short.
  destruct ((decpt <=? -4)%Z || (16 <? decpt)%Z) eqn:Hexp.
  { destruct ds as [|d0 rest]; [congruence|].
    apply digit_string_cons in Hds as [Hd0 Hrest].
    cbn [String.length].
    replace (S (String.length rest) - 1) with (String.length rest) by lia.
    cbn [substring]. rewrite substring_all.
    replace (String d0 (substring 0 0 rest)) with (String d0 "")
      by (destruct rest; reflexivity).
    assert (Hd : digit_string (String d0 ""))
      by (apply digit_string_cons; split; [exact Hd0 | constructor]).
    rewrite (of_str_parts neg (String d0 "") rest _ _ (decpt - 1));
      [| exact Hd | discriminate | exact Hrest | | right; reflexivity].
    - f_equal. f_equal. lia.
    - destruct rest as [|c rest]; [right; split; reflexivity|].
      left. reflexivity. }
  apply orb_false_elim in Hexp as [H4 H16].
  apply Z.leb_gt in H4. apply Z.ltb_ge in H16.
  destruct (Z.leb_spec decpt 0) as [H0|H0].
  { replace ("0." +:+ string_repeat "0" (Z.to_nat (- decpt)) +:+ ds)
      with ("0" +:+ ("." +:+ string_repeat "0" (Z.to_nat (- decpt)) +:+ ds) +:+ "")
      by (rewrite append_nil_r; reflexivity).
    rewrite (of_str_parts neg "0" (string_repeat "0" (Z.to_nat (- decpt)) +:+ ds) _ _ 0);
      [| apply digit_string_cons; split; [reflexivity | constructor]
       | discriminate
       | apply digit_string_app; split; [apply digit_string_zeros | exact Hds]
       | left; reflexivity
       | left; split; reflexivity].
    - f_equal.
      change ("0" +:+ string_repeat "0" (Z.to_nat (- decpt)) +:+ ds)
        with (string_repeat "0" (S (Z.to_nat (- decpt))) +:+ ds).
      rewrite int_of_digits_app, int_of_digits_zeros, length_append, length_zeros.
      f_equal. lia. }
  destruct (Z.ltb_spec decpt (Z.of_nat (String.length ds))) as [Hn|Hn].
  { set (k := Z.to_nat decpt).
    assert (Hk : k <= String.length ds) by lia.
    destruct (digit_string_substring_prefix k ds Hds Hk) as [Ha Hb].
    pose proof (substring_split k ds Hk) as Hsplit.
    pose proof (length_substring_prefix k ds Hk) as Hla.
    set (a := substring 0 k ds) in *.
    set (b := substring k (String.length ds - k) ds) in *.
    assert (Hlb : String.length b = String.length ds - k).
    { rewrite <- Hsplit at 1. rewrite length_append. lia. }
    replace (a +:+ "." +:+ b) with (a +:+ ("." +:+ b) +:+ "")
      by (rewrite append_nil_r; reflexivity).
    rewrite (of_str_parts neg a b _ _ 0);
      [| exact Ha | | exact Hb | left; reflexivity | left; split; reflexivity].
    - rewrite Hsplit, Hlb. f_equal. f_equal. lia.
    - intros Heq. rewrite Heq in Hla. cbn in Hla. lia. }
  set (j := Z.to_nat decpt - String.length ds).
  replace (ds +:+ string_repeat "0" j +:+ ".0")
    with ((ds +:+ string_repeat "0" j) +:+ ("." +:+ "0") +:+ "")
    by (rewrite append_nil_r, append_assoc; reflexivity).
  rewrite (of_str_parts neg (ds +:+ string_repeat "0" j) "0" _ _ 0);
    [| apply digit_string_app; split; [exact Hds | apply digit_string_zeros]
     | destruct ds; [congruence | discriminate]
     | apply digit_string_cons; split; [reflexivity | constructor]
     | left; reflexivity
     | left; split; reflexivity].
  f_equal.
  rewrite int_of_digits_app, int_of_digits_app, int_of_digits_zeros.
  cbn [Binary64.int_of_digits String.length]. change (Binary64.digit_value "0") with 0%Z.
  replace (Binary64.int_of_digits 0 ds * 10 ^ Z.of_nat j * 10 + 0)%Z
    with (Binary64.int_of_digits 0 ds * 10 ^ (Z.of_nat j + 1))%Z
    by (rewrite Z.pow_add_r by lia; ring).
  rewrite of_decimal_shift by lia. f_equal. lia.
Qed.

Lemma same_eq x y : Binary64.same x y = true -> x = y.
Proof.
  destruct x as [s u|s|], y as [s' u'|s'|]; cbn; try discriminate.
  - intros [Hs Hu]%andb_prop. apply Bool.eqb_prop in Hs.
    apply Z.eqb_eq in Hu. congruence.
  - intros Hs%Bool.eqb_prop. congruence.
  - reflexivity.
Qed.

Lemma reads_of_str s y : Binary64.reads s y = true <-> Binary64.of_str s = Some y.
Proof.
  unfold Binary64.reads. split.
  - destruct (Binary64.of_str s) as [x|]; [|discriminate].
    intros ->%same_eq. reflexivity.
  - intros ->. destruct y as [s' u|s'|]; cbn;
      rewrite ?Z.eqb_refl, ?andb_true_r; try reflexivity;
      destruct s'; reflexivity.
Qed.

Lemma exact_text_reads neg u :
  Binary64.representable u -> Binary64.of_str (Binary64.exact_text neg u) = Some (Binary64.Finite neg u).
Proof.
  intros Hu. unfold Binary64.exact_text.
  destruct (digits_spec (u * 5 ^ 1074)%Z) as (Hds & Hne & Hval).
  { destruct Hu as [[Hu _] _].
    assert (0 < 5 ^ 1074)%Z by (apply Z.pow_pos_nonneg; lia). nia. }
  rewrite of_str_format_short by assumption.
  rewrite Hval.
  replace (_ - 1074 - _)%Z with (- 1074)%Z by lia.
  rewrite of_decimal_exact by exact Hu. reflexivity.
Qed.

Lemma shortest_reads fuel : forall n neg u k,
  Binary64.representable u ->
  Binary64.of_str (Binary64.shortest fuel n neg u k) = Some (Binary64.Finite neg u).
Proof.
  induction fuel as [|fuel IH]; intros n neg u k Hu.
  - apply exact_text_reads. exact Hu.
  - cbn [Binary64.shortest].
    destruct (if (0 <=? k - Z.of_nat n)%Z
              then (u, (Binary64.quantum * 10 ^ (k - Z.of_nat n))%Z)
              else ((u * 10 ^ (- (k - Z.of_nat n)))%Z, Binary64.quantum))
      as [num den].
    match goal with
    | |- context [if Binary64.reads ?a ?y then _ else _] =>
        destruct (Binary64.reads a y) eqn:Ha; [apply reads_of_str; exact Ha|]
    end.
    match goal with
    | |- context [if Binary64.reads ?a ?y then _ else _] =>
        destruct (Binary64.reads a y) eqn:Hb; [apply reads_of_str; exact Hb|]
    end.
    apply IH. exact Hu.
Qed.

(** [float(str(x))] is [x] again. *)
Lemma of_str_str x : Binary64.valid x -> Binary64.of_str (Binary64.str x) = Some x.
Proof.
  destruct x as [neg u|neg|]; intros Hx.
  - unfold Binary64.str. destruct (Z.eqb_spec u 0) as [->|Hnz].
    + destruct neg; vm_compute; reflexivity.
    + apply shortest_reads. exact Hx.
  - destruct neg; reflexivity.
  - reflexivity.
Qed.

End ReadBack.

(** ** Values computed by CPython

    Each value below is the one CPython 3 gives, a number [m * 2^e] being
    the [m * 2^(e - 1074)] of [float.hex]. *)

(** [1 / 3], [0 / -5] and [23 / 160]; the integers [2^53 + 1] and
    [2^53 + 3] halfway between two numbers, which go to the even one. *)
Example truediv_values :
  Binary64.truediv 1 3 = Binary64.Finite false (6004799503160661 * 2 ^ 1020)
  /\ Binary64.truediv 0 (-5) = Binary64.Finite true 0
  /\ Binary64.truediv 23 160
     = Binary64.Finite false (2589569785738035 * 2 ^ 1020)
  /\ Binary64.truediv (2 ^ 53 + 1) 1 = Binary64.Finite false (1 * 2 ^ 1127)
  /\ Binary64.truediv (2 ^ 53 + 3) 1
     = Binary64.Finite false (2251799813685249 * 2 ^ 1076).
Proof. vm_compute. repeat split. Qed.

(** [23 / 160 * 100] is [14.374999999999998], not [14.375]. *)
Example mul_values :
  Binary64.mul (Binary64.truediv 23 160) (Binary64.of_int 100)
  = Binary64.Finite false (8092405580431359 * 2 ^ 1025)
  /\ Binary64.str (Binary64.mul (Binary64.truediv 23 160)
                                (Binary64.of_int 100))
     = "14.374999999999998".
Proof. vm_compute. repeat split. Qed.

(** [round(0.125, 2)] is [0.12], the tie going to the even digit, and
    [round(2.675, 2)] is [2.67], the binary number being below the tie. *)
Example round_values :
  Binary64.round (Binary64.Finite false (1 * 2 ^ 1071)) 2
  = Binary64.Finite false (1080863910568919 * 2 ^ 1021)
  /\ Binary64.round (Binary64.Finite false (3011782250804019 * 2 ^ 1024)) 2
     = Binary64.Finite false (1503076375634903 * 2 ^ 1025)
  /\ Binary64.round (Binary64.Finite true 1) 2 = Binary64.Finite true 0.
Proof. vm_compute. repeat split. Qed.

(** [repr] of [1/3], [1e16], [1e15], the smallest and the largest
    numbers, [0.00001], [0.0001] and [-0.0]. *)
Example str_values :
  Binary64.str (Binary64.truediv 1 3) = "0.3333333333333333"
  /\ Binary64.str (Binary64.of_int (10 ^ 16)) = "1e+16"
  /\ Binary64.str (Binary64.of_int (10 ^ 15)) = "1000000000000000.0"
  /\ Binary64.str (Binary64.Finite false 1) = "5e-324"
  /\ Binary64.str (Binary64.Finite false (9007199254740991 * 2 ^ 2045))
     = "1.7976931348623157e+308"
  /\ Binary64.str (Binary64.truediv 1 100000) = "1e-05"
  /\ Binary64.str (Binary64.truediv 1 10000) = "0.0001"
  /\ Binary64.str (Binary64.truediv 0 (-5)) = "-0.0".
Proof. vm_compute. repeat split. Qed.

(** [float] of some texts. *)
Example of_str_values :
  Binary64.of_str "0.1"
  = Some (Binary64.Finite false (3602879701896397 * 2 ^ 1019))
  /\ Binary64.of_str "14.37"
     = Some (Binary64.Finite false (8089590830664253 * 2 ^ 1025))
  /\ Binary64.of_str "1e400" = Some (Binary64.Infinity false)
  /\ Binary64.of_str "-Infinity" = Some (Binary64.Infinity true)
  /\ Binary64.of_str "1e-400" = Some (Binary64.Finite false 0)
  /\ Binary64.of_str "1.5e" = None
  /\ Binary64.of_str "" = None.
Proof. vm_compute. repeat split. Qed.

(** Percentages as line 343 prints them. *)
Example rarity_text_values :
  rarity_text (H := Binary64.instance) 23 160 = "14.37%"
  /\ rarity_text (H := Binary64.instance) 2 3 = "66.67%"
  /\ rarity_text (H := Binary64.instance) 1 5000 = "0.02%"
  /\ rarity_text (H := Binary64.instance) 5000 5000 = "100.0%"
  /\ rarity_text (H := Binary64.instance) 0 5 = "0.0%"
  /\ rarity_text (H := Binary64.instance) 1 32 = "3.12%".
Proof. vm_compute. repeat split. Qed.

(** ** The percentages of [get_rarity] *)

Section Percentages.
Local Open Scope Z_scope.

(** A quotient below [2^1023] is rounded to a finite number. *)
Lemma rnd_finite neg num den :
  0 <= num -> 0 < den -> num / den < 2 ^ 2097 ->
  exists u, Binary64.rnd neg num den = Binary64.Finite neg u.
Proof.
  intros Hn Hd Hq. unfold Binary64.rnd.
  set (q0 := num / den) in *.
  set (e := Z.max 0 (Z.log2 q0 - 52)).
  set (m := Binary64.round_half_even num (den * 2 ^ e)).
  assert (Hq0 : 0 <= q0) by (apply Z.div_pos; lia).
  assert (He : 0 < 2 ^ e) by (apply Z.pow_pos_nonneg; lia).
  assert (Hlog : Z.log2 q0 < 2097).
  { destruct (Z.eq_dec q0 0) as [->|Hnz]; [reflexivity|].
    apply Z.log2_lt_pow2; lia. }
  assert (Hm : m <= 2 ^ 53).
  { pose proof (round_half_even_bounds num (den * 2 ^ e) ltac:(nia)) as Hb.
    fold m in Hb. rewrite <- Z.div_div in Hb by lia. fold q0 in Hb.
    assert (q0 / 2 ^ e < 2 ^ 53); [|lia].
    apply Z.div_lt_upper_bound; [lia|].
    rewrite <- Z.pow_add_r by lia.
    destruct (Z.eq_dec q0 0) as [->|Hnz].
    - apply Z.pow_pos_nonneg; lia.
    - pose proof (Z.log2_spec q0 ltac:(lia)) as [_ Hlt].
      eapply Z.lt_le_trans; [exact Hlt|].
      apply Z.pow_le_mono_r; lia. }
  exists (m * 2 ^ e).
  destruct (Z.leb_spec Binary64.overflow (m * 2 ^ e)) as [Hov|];
    [|reflexivity].
  exfalso. unfold Binary64.overflow in Hov.
  assert (2 ^ e <= 2 ^ 2044) by (apply Z.pow_le_mono_r; lia).
  assert (m * 2 ^ e <= 2 ^ 53 * 2 ^ 2044) by nia.
  rewrite <- Z.pow_add_r in * by lia.
  assert (2 ^ (53 + 2044) < 2 ^ 2098) by (apply Z.pow_lt_mono_r; lia).
  lia.
Qed.

(** The quotient of a count by a positive total is in range: the division
    of line 343 does not overflow. *)
Lemma truediv_finite count total :
  0 <= count < 2 ^ 63 -> 0 < total ->
  exists u, Binary64.truediv count total = Binary64.Finite false u.
Proof.
  intros Hc Ht. unfold Binary64.truediv.
  replace (count <? 0) with false by (symmetry; apply Z.ltb_ge; lia).
  replace (total <? 0) with false by (symmetry; apply Z.ltb_ge; lia).
  rewrite !Z.abs_eq by lia. pose proof quantum_pos.
  apply rnd_finite; [nia | lia |].
  apply Z.div_lt_upper_bound; [lia|].
  assert (count * Binary64.quantum < 2 ^ 63 * 2 ^ 1074).
  { unfold Binary64.quantum in *. nia. }
  rewrite <- Z.pow_add_r in * by lia.
  assert (2 ^ (63 + 1074) < 2 ^ 2097) by (apply Z.pow_lt_mono_r; lia).
  nia.
Qed.

Lemma hundred : Binary64.of_int 100 = Binary64.Finite false (100 * 2 ^ 1074).
Proof. vm_compute. reflexivity. Qed.

Lemma rnd_not_nan neg num den : Binary64.rnd neg num den <> Binary64.NaN.
Proof. unfold Binary64.rnd. destruct (_ <=? _); discriminate. Qed.

(** The product by [HUNDRED] and its rounding are numbers. *)
Lemma percentage_not_nan count total :
  Binary64.round
    (Binary64.mul (Binary64.truediv count total) (Binary64.of_int 100)) 2
  <> Binary64.NaN.
Proof.
  rewrite hundred.
  assert (Hmul : Binary64.mul (Binary64.truediv count total)
                   (Binary64.Finite false (100 * 2 ^ 1074)) <> Binary64.NaN).
  { destruct (Binary64.truediv count total) as [s u|s|] eqn:Hq.
    - apply rnd_not_nan.
    - discriminate.
    - exfalso. exact (rnd_not_nan _ _ _ Hq). }
  destruct (Binary64.mul _ _) as [s u|s|]; try congruence.
  - unfold Binary64.round, Binary64.of_decimal.
    change (Binary64.NDIGITS_MAX <? 2) with false.
    change (2 <? Binary64.NDIGITS_MIN) with false.
    change (0 <=? 2) with true. change (0 <=? - 2) with false.
    cbv iota. apply rnd_not_nan.
  - discriminate.
Qed.

Lemma eq_refl_number x : x <> Binary64.NaN -> Binary64.eq x x = true.
Proof.
  destruct x as [s u|s|]; intros Hx; [| |congruence]; cbn.
  - rewrite Z.eqb_refl, andb_true_r.
    destruct s; cbn; apply orb_true_r.
  - destruct s; reflexivity.
Qed.

End Percentages.

(** C3: with a positive [total], [get_rarity] returns, and in every record
    the rarityPercentage is the text that [str] gives for the binary64
    number [round(occurrenceCount / total * 100, 2)], followed by [%],
    where occurrenceCount is the number of occurrences of the key in the
    data.  Without the [%], [float] reads the text as that very number, bit
    for bit, and the number is equal to itself under [==], being no NaN.
    For a count below [2^63], which every length of a Python list is, the
    division does not overflow. *)
Theorem get_rarity_percentage {K : Type} `{Countable K}
    (data : list K) (mapping : gmap K (list Z)) (total : Z) :
  (0 < total)%Z ->
  exists out,
    get_rarity (H := Binary64.instance) data mapping total = Some out
    /\ forall x, x ∈ out ->
         let count := Z.of_nat (occurrenceCount x) in
         let number :=
           Binary64.round
             (Binary64.mul (Binary64.truediv count total)
                           (Binary64.of_int 100)) 2 in
         occurrenceCount x = occurrences (record_key x) data
         /\ rarityPercentage x = Binary64.str number +:+ "%"
         /\ (exists parsed,
               parse_percentage (H := Binary64.instance) (rarityPercentage x)
               = Some parsed
               /\ parsed = number
               /\ Binary64.eq parsed number = true)
         /\ Binary64.valid number
         /\ ((count < 2 ^ 63)%Z ->
             exists u, Binary64.truediv count total = Binary64.Finite false u).
Proof.
  intros Hpos.
  destruct (get_rarity_returns (H := Binary64.instance) data mapping total)
    as [out Hout]; [left; lia|].
  exists out. split; [assumption|].
  intros x Hx count number.
  destruct (get_rarity_elem_of _ _ _ _ _ Hout Hx) as (_ & Hc & Hr & _).
  assert (Hvalid : Binary64.valid number).
  { apply round_valid, mul_valid; [apply truediv_valid; lia|].
    apply of_int_valid. }
  change (rarity_text (occurrenceCount x) total)
    with (Binary64.str number +:+ "%") in Hr.
  split; [exact Hc|]. split; [exact Hr|]. split; [|split; [exact Hvalid|]].
  - exists number. split; [|split; [reflexivity|]].
    + unfold parse_percentage. rewrite Hr, strip_percent_app.
      exact (of_str_str number Hvalid).
    + apply eq_refl_number, percentage_not_nan.
  - intros Hcount. apply truediv_finite; [|exact Hpos].
    subst count. lia.
Qed.

Lemma get_rarity_percentage_witness :
  get_rarity (H := Binary64.instance)
    (replicate 23 "a" ++ replicate 137 "b") ∅ 160
  = Some [("a", 23, "14.37%", []); ("b", 137, "85.62%", [])]
  /\ parse_percentage (H := Binary64.instance) "14.37%"
     = Some (Binary64.round
               (Binary64.mul (Binary64.truediv 23 160) (Binary64.of_int 100))
               2)
  /\ Binary64.round
       (Binary64.mul (Binary64.truediv 23 160) (Binary64.of_int 100)) 2
     = Binary64.Finite false (8089590830664253 * 2 ^ 1025).
Proof.
  destruct (get_rarity_percentage (replicate 23 "a" ++ replicate 137 "b")
              ∅ 160 eq_refl) as (out & Hout & Hall).
  assert (Heq : get_rarity (H := Binary64.instance)
                  (replicate 23 "a" ++ replicate 137 "b") ∅ 160
                = Some [("a", 23, "14.37%", []); ("b", 137, "85.62%", [])])
    by (vm_compute; reflexivity).
  split; [exact Heq|].
  rewrite Heq in Hout. injection Hout as <-.
  destruct (Hall ("a", 23, "14.37%", []) ltac:(left))
    as (_ & _ & (parsed & Hp & -> & _) & _).
  split; [exact Hp|]. vm_compute. reflexivity.
Defined.
